(** * Image fusion and Procrustes alignment: a shallow embedding of [app.py]

    The development follows the source file top-down:

    - [RealField]: the real numbers of the Standard Library as a MathComp
      real field, so that sums, matrices and determinants are available
      for the numeric code (floating point is idealised as [R]);
    - [Py]: Python exceptions as an error monad;
    - [Np]: the NumPy / PyTorch / OpenCV array operations the program calls;
    - [Procrustes]: the function [procrustes];
    - [VGG19]: the method [VGG19.forward];
    - [Fusion]: the methods of class [Fusion], with [fuse] written over an
      explicit store of array objects because it assigns in place;
    - [PyStr] and [convertToIntList], at the end: the string operations
      of Python and the parser of coordinate lists.

    The properties come after the definitions they are about: first those
    of the specification, then further properties of [fuse], [_fuse],
    [procrustes] and [convertToIntList].
*)

From HB Require Import structures.
From Stdlib Require Import Reals Lra Lia ClassicalEpsilon FunctionalExtensionality.
From Stdlib Require Import ZArith String.
From Stdlib Require DecimalPos DecimalZ.
From mathcomp Require Import boot order algebra.
From mathcomp Require Import lra ring_tactic field_tactic.

Set Implicit Arguments.
Unset Strict Implicit.
Unset Printing Implicit Defensive.

Delimit Scope R_scope with Re.
Delimit Scope Z_scope with ZZ.

(** ** The reals as a MathComp real field *)

Module RealField.

Local Open Scope R_scope.

Definition Req_bool (x y : R) : bool :=
  match Req_dec_T x y with left _ => true | right _ => false end.

Lemma Req_boolP : Equality.axiom Req_bool.
Proof.
move=> x y; rewrite /Req_bool.
by case: (Req_dec_T x y) => h; constructor.
Qed.

HB.instance Definition _ := hasDecEq.Build R Req_boolP.

(** A choice operator on [R], from the description axiom of classical logic. *)
Definition R_find (P : pred R) (n : nat) : option R :=
  match excluded_middle_informative (exists x, P x) with
  | left ex => Some (proj1_sig (constructive_indefinite_description _ ex))
  | right _ => None
  end.

Lemma R_find_correct (P : pred R) n x : R_find P n = Some x -> P x.
Proof.
rewrite /R_find; case: excluded_middle_informative => // ex [<-].
exact: (proj2_sig (constructive_indefinite_description _ ex)).
Qed.

Lemma R_find_complete (P : pred R) : (exists x, P x) -> exists n, R_find P n.
Proof.
move=> ex; exists O; rewrite /R_find.
by case: excluded_middle_informative.
Qed.

Lemma R_find_ext (P Q : pred R) : P =1 Q -> R_find P =1 R_find Q.
Proof.
move=> ePQ n.
have -> : P = Q by apply: functional_extensionality.
by [].
Qed.

HB.instance Definition _ :=
  hasChoice.Build R R_find_correct R_find_complete R_find_ext.

Lemma RplusA : associative Rplus.
Proof. by move=> x y z; rewrite Rplus_assoc. Qed.

Lemma RmultA : associative Rmult.
Proof. by move=> x y z; rewrite Rmult_assoc. Qed.

HB.instance Definition _ :=
  GRing.isZmodule.Build R RplusA Rplus_comm Rplus_0_l Rplus_opp_l.

Lemma R1_neq0 : (R1 != 0 :> R).
Proof. by apply/eqP; exact: R1_neq_R0. Qed.

HB.instance Definition _ :=
  GRing.Zmodule_isComNzRing.Build R RmultA Rmult_comm Rmult_1_l
    Rmult_plus_distr_r R1_neq0.

Lemma RmulVf (x : R) : x != 0 -> Rinv x * x = 1.
Proof. by move/eqP => nz; exact: Rinv_l. Qed.

HB.instance Definition _ := GRing.ComNzRing_isField.Build R RmulVf Rinv_0.

Definition Rlt_bool (x y : R) : bool :=
  match Rlt_dec x y with left _ => true | right _ => false end.

Definition Rle_bool (x y : R) : bool :=
  match Rle_dec x y with left _ => true | right _ => false end.

Lemma Rlt_boolP x y : reflect (Rlt x y) (Rlt_bool x y).
Proof. by rewrite /Rlt_bool; case: Rlt_dec => h; constructor. Qed.

Lemma Rle_boolP x y : reflect (Rle x y) (Rle_bool x y).
Proof. by rewrite /Rle_bool; case: Rle_dec => h; constructor. Qed.

Lemma R_lt0_add x y : Rlt_bool 0 x -> Rlt_bool 0 y -> Rlt_bool 0 (x + y).
Proof.
move=> /Rlt_boolP hx /Rlt_boolP hy; apply/Rlt_boolP.
exact: Rplus_lt_0_compat.
Qed.

Lemma R_lt0_mul x y : Rlt_bool 0 x -> Rlt_bool 0 y -> Rlt_bool 0 (x * y).
Proof.
move=> /Rlt_boolP hx /Rlt_boolP hy; apply/Rlt_boolP.
exact: Rmult_lt_0_compat.
Qed.

Lemma R_lt0_ngt0 x : Rlt_bool 0 x -> ~~ Rlt_bool x 0.
Proof.
move=> /Rlt_boolP hx; apply/Rlt_boolP => hx'.
exact: (Rlt_asym _ _ hx).
Qed.

Lemma R_sub_gt0 x y : Rlt_bool 0 (y - x) = Rlt_bool x y.
Proof.
by apply/Rlt_boolP/Rlt_boolP; rewrite /GRing.add /GRing.opp /= => h; Lra.lra.
Qed.

Lemma R_lt0_total x : x != 0 -> Rlt_bool 0 x || Rlt_bool x 0.
Proof.
move/eqP => nz; apply/orP.
case: (Rtotal_order 0 x) => [h|[h|h]]; first by left; apply/Rlt_boolP.
  by case: nz.
by right; apply/Rlt_boolP.
Qed.

Lemma R_normN x : Rabs (- x) = Rabs x.
Proof. exact: Rabs_Ropp. Qed.

Lemma R_ge0_norm x : Rle_bool 0 x -> Rabs x = x.
Proof. by move/Rle_boolP => h; rewrite Rabs_pos_eq. Qed.

Lemma R_le_def x y : Rle_bool x y = (x == y) || Rlt_bool x y.
Proof.
apply/Rle_boolP/orP => [[h|->]|[/eqP->|/Rlt_boolP h]].
- by right; apply/Rlt_boolP.
- by left.
- exact: Rle_refl.
- exact: Rlt_le.
Qed.

HB.instance Definition _ :=
  Num.IntegralDomain_isLtReal.Build R R_lt0_add R_lt0_mul R_lt0_ngt0
    R_sub_gt0 R_lt0_total R_normN R_ge0_norm R_le_def.

End RealField.

Import RealField.
Import Order.POrderTheory Order.TotalTheory GRing.Theory Num.Theory.
Local Open Scope ring_scope.

(** Bridges between the orders of the two libraries. *)
Lemma RltP (x y : R) : reflect (Rlt x y) (x < y).
Proof. exact: Rlt_boolP. Qed.

Lemma RleP (x y : R) : reflect (Rle x y) (x <= y).
Proof. exact: Rle_boolP. Qed.

Lemma exp_gt0 (x : R) : 0 < exp x.
Proof. by apply/RltP; exact: exp_pos. Qed.

(** ** Python exceptions *)

Module Py.

(** The exception classes that the calls made by [app.py] can raise.  The
    program defines no exception class of its own. *)
Inductive exn : Type :=
  | IndexError
  | TypeError
  | ValueError
  | AttributeError
  | RuntimeError      (* raised by torch *)
  | LinAlgError       (* numpy.linalg.LinAlgError *)
  | cv2_error.        (* cv2.error *)

Definition exn_name (e : exn) : string :=
  match e with
  | IndexError => "IndexError"
  | TypeError => "TypeError"
  | ValueError => "ValueError"
  | AttributeError => "AttributeError"
  | RuntimeError => "RuntimeError"
  | LinAlgError => "LinAlgError"
  | cv2_error => "error"
  end.

Inductive result (A : Type) : Type :=
  | Ok (a : A)
  | Raise (e : exn).

Arguments Ok {A} a.
Arguments Raise {A} e.

Definition bind {A B : Type} (m : result A) (f : A -> result B) : result B :=
  match m with
  | Ok a => f a
  | Raise e => Raise e
  end.

Definition returns {A : Type} (m : result A) : bool :=
  if m is Ok _ then true else false.

End Py.

Import Py.

Notation "'let*' x ':=' m 'in' k" := (Py.bind m (fun x => k))
  (at level 200, x pattern, m at level 100, k at level 200,
   right associativity).

(** ** Arrays: the NumPy, PyTorch and OpenCV calls of the program *)

Module Np.

Local Open Scope nat_scope.

(** An n-dimensional array: its [shape] and its elements, addressed by an
    index list of the same length as the shape.  Elements outside the shape
    are never read by the operations below. *)
Record ndarray (A : Type) : Type := NdArray {
  shape : seq nat;
  get : seq nat -> A
}.

Definition array := ndarray R.

Definition ndim {A} (a : ndarray A) : nat := size (shape a).

Fixpoint in_bounds (sh ix : seq nat) : bool :=
  match sh, ix with
  | [::], [::] => true
  | n :: sh', i :: ix' => (i < n) && in_bounds sh' ix'
  | _, _ => false
  end.

(** All the indices of a shape, in row-major order. *)
Fixpoint indices (sh : seq nat) : seq (seq nat) :=
  if sh is n :: sh' then
    flatten [seq [seq i :: ix | ix <- indices sh'] | i <- iota 0 n]
  else [:: [::]].

(** Two arrays are the same array value: same shape, same elements. *)
Definition same {A} (a b : ndarray A) : Prop :=
  shape a = shape b /\
  forall ix, in_bounds (shape a) ix -> get a ix = get b ix.

Definition amap {A B} (f : A -> B) (a : ndarray A) : ndarray B :=
  NdArray (shape a) (fun ix => f (get a ix)).

Definition full {A} (sh : seq nat) (x : A) : ndarray A :=
  NdArray sh (fun _ => x).

(** [a.all()] on a boolean array. *)
Definition all_true (a : ndarray bool) : bool :=
  all (get a) (indices (shape a)).

(** *** Broadcasting *)

(** Shapes are aligned on their last dimension; a dimension of size 1 is
    stretched.  [bshape_rev] works on reversed shapes. *)
Fixpoint bshape_rev (s1 s2 : seq nat) : option (seq nat) :=
  match s1, s2 with
  | [::], _ => Some s2
  | _, [::] => Some s1
  | n1 :: r1, n2 :: r2 =>
      if (n1 == n2) || (n2 == 1%N) then omap (cons n1) (bshape_rev r1 r2)
      else if n1 == 1%N then omap (cons n2) (bshape_rev r1 r2)
      else None
  end.

Definition broadcast_shape (s1 s2 : seq nat) : option (seq nat) :=
  omap rev (bshape_rev (rev s1) (rev s2)).

(** The index of an operand of shape [sh] that supplies the element at
    index [ix] of the broadcast result. *)
Definition bindex (sh ix : seq nat) : seq nat :=
  [seq (if p.1 == 1%N then 0%N else p.2)
  | p <- zip sh (drop (size ix - size sh) ix)].

Definition broadcast2 {A B C} (f : A -> B -> C)
    (a : ndarray A) (b : ndarray B) : option (ndarray C) :=
  if broadcast_shape (shape a) (shape b) is Some sh then
    Some (NdArray sh (fun ix =>
            f (get a (bindex (shape a) ix)) (get b (bindex (shape b) ix))))
  else None.

(** NumPy raises [ValueError] when operands do not broadcast, torch raises
    [RuntimeError]. *)
Definition np_op2 {A B C} (f : A -> B -> C) a b : result (ndarray C) :=
  if broadcast2 f a b is Some c then Ok c else Raise ValueError.

Definition torch_op2 {A B C} (f : A -> B -> C) a b : result (ndarray C) :=
  if broadcast2 f a b is Some c then Ok c else Raise RuntimeError.

(** In-place [a += b] of torch: [b] must broadcast to the shape of [a]. *)
Definition torch_iadd (a b : array) : result array :=
  if broadcast_shape (shape a) (shape b) == Some (shape a) then
    Ok (NdArray (shape a)
          (fun ix => (get a ix + get b (bindex (shape b) ix))%R))
  else Raise RuntimeError.

(** *** Indexing and reshaping *)

(** [a[:, :, k]]. *)
Definition slice_axis2 {A} (a : ndarray A) (k : nat) : result (ndarray A) :=
  if shape a is h :: w :: c :: rest then
    if k < c then
      Ok (NdArray (h :: w :: rest)
            (fun ix => get a (take 2 ix ++ k :: drop 2 ix)))
    else Raise IndexError
  else Raise IndexError.

(** [t[:, k]]. *)
Definition slice_axis1 {A} (a : ndarray A) (k : nat) : result (ndarray A) :=
  if shape a is b :: c :: rest then
    if k < c then
      Ok (NdArray (b :: rest) (fun ix => get a (take 1 ix ++ k :: drop 1 ix)))
    else Raise IndexError
  else Raise IndexError.

(** [np.repeat(a[None, None], 3, axis=1)]: shape [(1, 3) + a.shape]. *)
Definition repeat3_new_axes {A} (a : ndarray A) : ndarray A :=
  NdArray (1%N :: 3%N :: shape a) (fun ix => get a (drop 2 ix)).

(** [np.transpose(a, axes)]: [axes] must be a permutation of the axes. *)
Definition transpose {A} (a : ndarray A) (axes : seq nat) : result (ndarray A) :=
  if perm_eq axes (iota 0 (ndim a)) then
    Ok (NdArray [seq nth 0%N (shape a) p | p <- axes]
          (fun ix => get a [seq nth 0%N ix (index k axes) | k <- iota 0 (ndim a)]))
  else Raise ValueError.

(** [a[None]]. *)
Definition new_axis0 {A} (a : ndarray A) : ndarray A :=
  NdArray (1%N :: shape a) (fun ix => get a (behead ix)).

(** [np.squeeze(a)]: the axes of length one are removed. *)
Fixpoint unsqueeze_index (sh ix : seq nat) : seq nat :=
  match sh with
  | [::] => [::]
  | n :: sh' =>
      if n == 1%N then 0%N :: unsqueeze_index sh' ix
      else head 0%N ix :: unsqueeze_index sh' (behead ix)
  end.

Definition squeeze {A} (a : ndarray A) : ndarray A :=
  NdArray [seq n <- shape a | n != 1%N]
    (fun ix => get a (unsqueeze_index (shape a) ix)).

(** [a[:, :, 0] = v]: the value of [a] after the assignment.  [v] must
    broadcast to the shape of the slice; leading axes of length one of [v]
    in excess of the slice's rank are dropped first. *)
Fixpoint strip_ones (n : nat) (sh : seq nat) : seq nat :=
  match n, sh with
  | n'.+1, 1%N :: sh' => strip_ones n' sh'
  | _, _ => sh
  end.

Definition assign_axis2_0 {A} (a v : ndarray A) : result (ndarray A) :=
  if shape a is h :: w :: c :: rest then
    if 0 < c then
      let target := h :: w :: rest in
      let sv := strip_ones (ndim v - size target) (shape v) in
      if broadcast_shape target sv == Some target then
        Ok (NdArray (shape a) (fun ix =>
              if nth 0%N ix 2 == 0%N then
                let jx := take 2 ix ++ drop 3 ix in
                get v (nseq (ndim v - size sv) 0%N ++ bindex sv jx)
              else get a ix))
      else Raise ValueError
    else Raise IndexError
  else Raise IndexError.

(** *** torch *)

(** [torch.sum(t, dim=1, keepdim=True)]. *)
Definition sum_dim1_keep (t : array) : result array :=
  if shape t is b :: c :: rest then
    Ok (NdArray (b :: 1 :: rest)
          (fun ix => (\sum_(k < c) get t (take 1 ix ++ (k : nat) :: drop 2 ix))%R))
  else Raise IndexError.

(** [torch.cat(ts, dim=1)]: the tensors agree on every axis but the second. *)
Definition cat_ok (s1 s2 : seq nat) : bool :=
  [&& size s1 == size s2, take 1 s1 == take 1 s2 & drop 2 s1 == drop 2 s2].

Fixpoint cat_get (ts : seq array) (ix : seq nat) : R :=
  if ts is t :: ts' then
    let c := nth 0 (shape t) 1 in
    let k := nth 0 ix 1 in
    if k < c then get t ix
    else cat_get ts' (take 1 ix ++ (k - c) :: drop 2 ix)
  else 0%R.

Definition cat_dim1 (ts : seq array) : result array :=
  if ts is t :: ts' then
    if ndim t < 2 then Raise IndexError
    else if all (fun u => cat_ok (shape t) (shape u)) ts' then
      Ok (NdArray (take 1 (shape t)
                   ++ sumn [seq nth 0 (shape u) 1 | u <- ts] :: drop 2 (shape t))
            (cat_get ts))
    else Raise RuntimeError
  else Raise RuntimeError.

(** [F.interpolate(t, size=size)] in its default mode, nearest neighbour:
    output pixel [(i, j)] reads input pixel
    [(floor (i * Hin / H), floor (j * Win / W))].  The batch may be empty,
    the channels and the spatial sizes may not. *)
Definition interpolate (t : array) (size : seq nat) : result array :=
  if shape t is [:: b; c; hin; win] then
    if size is [:: h; w] then
      if [&& 0 < c, 0 < hin, 0 < win, 0 < h & 0 < w] then
        Ok (NdArray [:: b; c; h; w]
              (fun ix => get t [:: nth 0 ix 0; nth 0 ix 1;
                                   (nth 0 ix 2 * hin) %/ h;
                                   (nth 0 ix 3 * win) %/ w]))
      else Raise RuntimeError
    else Raise ValueError
  else Raise ValueError.

(** [torch.zeros(shape)]. *)
Definition zeros (sh : seq nat) : array := full sh 0%R.

(** *** numpy *)

(** [a.T]. *)
Definition T_ {A} (a : ndarray A) : ndarray A :=
  NdArray (rev (shape a)) (fun ix => get a (rev ix)).

(** [a.sum()]. *)
Definition sum_all (a : array) : R :=
  (\sum_(ix <- indices (shape a)) get a ix)%R.

(** [a.mean(0)] of a two-dimensional array. *)
Definition mean0 (a : array) : array :=
  let n := nth 0 (shape a) 0 in
  NdArray (behead (shape a))
    (fun ix => ((\sum_(i < n) get a ((i : nat) :: ix)) / n%:R)%R).

(** [np.dot(a, b)] for the ranks the program uses: matrix by matrix and
    vector by matrix. *)
Definition dot (a b : array) : result array :=
  match shape a, shape b with
  | [:: p; q], [:: q'; r] =>
      if q == q' then
        Ok (NdArray [:: p; r]
              (fun ix => (\sum_(k < q) get a [:: nth 0 ix 0; (k : nat)]
                                       * get b [:: (k : nat); nth 0 ix 1])%R))
      else Raise ValueError
  | [:: q], [:: q'; r] =>
      if q == q' then
        Ok (NdArray [:: r]
              (fun ix => (\sum_(k < q) get a [:: (k : nat)]
                                       * get b [:: (k : nat); nth 0 ix 0])%R))
      else Raise ValueError
  | _, _ => Raise ValueError
  end.

(** The square matrix held by a two-dimensional array. *)
Definition mx_of (p q : nat) (a : array) : 'M[R]_(p, q) :=
  (\matrix_(i < p, j < q) get a [:: (i : nat); (j : nat)])%R.

(** [np.linalg.det(a)]. *)
Definition det (a : array) : result R :=
  if shape a is [:: p; q] then
    if p == q then Ok (\det (mx_of p p a))%R else Raise LinAlgError
  else Raise LinAlgError.

(** [a[:, -1] *= -1] on a two-dimensional array: its value afterwards. *)
Definition negate_last_column (a : array) : result array :=
  if shape a is [:: p; q] then
    if 0 < q then
      Ok (NdArray (shape a)
            (fun ix => if nth 0 ix 1 == q.-1 then (- get a ix)%R else get a ix))
    else Raise IndexError
  else Raise IndexError.

(** [s[-1] *= -1] on a one-dimensional array. *)
Definition negate_last (s : array) : result array :=
  if shape s is q :: rest then
    if 0 < q then
      Ok (NdArray (shape s)
            (fun ix => if nth 0 ix 0 == q.-1 then (- get s ix)%R else get s ix))
    else Raise IndexError
  else Raise IndexError.

(** [a[:k, :]]. *)
Definition take_rows {A} (a : ndarray A) (k : nat) : ndarray A :=
  NdArray (minn k (nth 0 (shape a) 0) :: behead (shape a)) (get a).

(** [np.clip(a, lo, hi)]. *)
Definition clip (a : array) (lo hi : R) : array :=
  amap (fun x => Num.min (Num.max x lo) hi) a.

(** [a.astype(np.uint8)] on a float array: the fraction is dropped, and a
    value outside the 8-bit range is reduced modulo 256. *)
Definition to_uint8 (x : R) : Z :=
  Z.modulo (if (0 <= x)%R then Zfloor x else Z.opp (Zfloor (- x)%R)) 256%ZZ.

Definition astype_uint8 (a : array) : ndarray Z := amap to_uint8 a.

(** *** OpenCV *)

Inductive color_code : Type := COLOR_RGB2YCrCb | COLOR_YCrCb2RGB.

(** [cv2.cvtColor(src, code)] on a float image, with the coefficients of
    the OpenCV documentation ([delta] is 0.5 for floating-point images).
    The source is a non-empty image of 3 channels (3 or 4 for the forward
    conversion); the destination has 3 channels. *)
Definition cvtColor (src : array) (code : color_code) : result array :=
  if shape src is [:: h; w; c] then
    if [&& 0 < h, 0 < w &
        match code with
        | COLOR_RGB2YCrCb => (c == 3) || (c == 4)
        | COLOR_YCrCb2RGB => c == 3
        end] then
      let px ix k := get src [:: nth 0 ix 0; nth 0 ix 1; k] in
      Ok (NdArray [:: h; w; 3]
        (fun ix =>
           match code with
           | COLOR_RGB2YCrCb =>
               let r := px ix 0 in let g := px ix 1 in let b := px ix 2 in
               let y := (299%:R / 1000%:R * r + 587%:R / 1000%:R * g
                         + 114%:R / 1000%:R * b)%R in
               match nth 0 ix 2 with
               | 0 => y
               | 1 => ((r - y) * (713%:R / 1000%:R) + 1 / 2%:R)%R
               | _ => ((b - y) * (564%:R / 1000%:R) + 1 / 2%:R)%R
               end
           | COLOR_YCrCb2RGB =>
               let y := px ix 0 in
               let cr := (px ix 1 - 1 / 2%:R)%R in
               let cb := (px ix 2 - 1 / 2%:R)%R in
               match nth 0 ix 2 with
               | 0 => (y + 1403%:R / 1000%:R * cr)%R
               | 1 => (y - 714%:R / 1000%:R * cr - 344%:R / 1000%:R * cb)%R
               | _ => (y + 1773%:R / 1000%:R * cb)%R
               end
           end))
    else Raise cv2_error
  else Raise cv2_error.

(** [np.zeros(n, k)]: the second positional argument of [np.zeros] is the
    data type, and NumPy cannot interpret an integer as a data type. *)
Definition zeros_dtype_int (n k : nat) : result array := Raise TypeError.

(** [np.concatenate((a, b), 0)] of two-dimensional arrays. *)
Definition concatenate0 (a b : array) : result array :=
  match shape a, shape b with
  | [:: p; q], [:: p'; q'] =>
      if q == q' then
        Ok (NdArray [:: p + p'; q]
              (fun ix => if nth 0 ix 0 < p then get a ix
                         else get b ((nth 0 ix 0 - p) :: behead ix)))
      else Raise ValueError
  | _, _ => Raise ValueError
  end.

End Np.

Import Np.

(** ** [procrustes] *)

Module Procrustes.

(** The argument [reflection]: ['best'], [True] or [False]. *)
Inductive reflection_arg : Type :=
  | best
  | force (r : bool).

(** The dictionary [tform]. *)
Record tform : Type := Tform {
  rotation : array;
  scale : R;
  translation : array
}.

Section WithSvd.

(** [np.linalg.svd(A, full_matrices=False)], a LAPACK routine: the triple
    [(U, s, Vt)]. *)
Variable svd : array -> array * array * array.

Definition procrustes (X Y : array) (scaling : bool)
    (reflection : reflection_arg) : result (R * array * tform) :=
  match shape X, shape Y with
  | [:: n; m], [:: ny; my] =>
      let muX := mean0 X in
      let muY := mean0 Y in
      let* X0 := np_op2 (fun x mu => x - mu) X muX in
      let* Y0 := np_op2 (fun y mu => y - mu) Y muY in
      let ssX := sum_all (amap (fun x => x ^+ 2) X0) in
      let ssY := sum_all (amap (fun y => y ^+ 2) Y0) in
      (* centred Frobenius norm *)
      let normX := sqrt ssX in
      let normY := sqrt ssY in
      (* scale to equal (unit) norm *)
      let X0 := amap (fun x => x / normX) X0 in
      let Y0 := amap (fun y => y / normY) Y0 in
      let* Y0 :=
        if (my < m)%N then
          let* z := zeros_dtype_int n (m - my) in concatenate0 Y0 z
        else Ok Y0 in
      (* optimum rotation matrix of Y *)
      let* A := dot (T_ X0) Y0 in
      let '(U, s, Vt) := svd A in
      let V := T_ Vt in
      let* T := dot V (T_ U) in
      let* VsT :=
        if reflection is force r then
          (* does the current solution use a reflection? *)
          let* detT := det T in
          let have_reflection := detT < 0 in
          (* if that's not what was specified, force another reflection *)
          if r != have_reflection then
            let* V' := negate_last_column V in
            let* s' := negate_last s in
            let* T' := dot V' (T_ U) in
            Ok (V', s', T')
          else Ok (V, s, T)
        else Ok (V, s, T) in
      let '(V, s, T) := VsT in
      let traceTA := sum_all s in
      let* bdZ :=
        if scaling then
          (* optimum scaling of Y *)
          let b := traceTA * normX / normY in
          (* standarised distance between X and b*Y*T + c *)
          let d := 1 - traceTA ^+ 2 in
          (* transformed coords *)
          let* YT := dot Y0 T in
          let* Z := np_op2 +%R (amap (fun x => normX * traceTA * x) YT) muX in
          Ok (b, d, Z)
        else
          let b := 1 in
          let d := 1 + ssY / ssX - 2%:R * traceTA * normY / normX in
          let* YT := dot Y0 T in
          let* Z := np_op2 +%R (amap (fun x => normY * x) YT) muX in
          Ok (b, d, Z) in
      let '(b, d, Z) := bdZ in
      (* transformation matrix *)
      let T := if (my < m)%N then take_rows T my else T in
      let* muYT := dot muY T in
      let* c := np_op2 (fun x y => x - y) muX (amap (fun x => b * x) muYT) in
      Ok (d, Z, Tform T b c)
  | _, _ => Raise ValueError
  end.

End WithSvd.

End Procrustes.

(** ** Loops over Python lists in the error monad *)

Fixpoint mapM {A B : Type} (f : A -> result B) (s : seq A) : result (seq B) :=
  if s is x :: s' then
    let* y := f x in
    let* ys := mapM f s' in
    Ok (y :: ys)
  else Ok [::].

(** [zip( *rows)]: the columns of [rows], as long as every row has one. *)
Fixpoint zip_star_aux {A : Type} (first : seq A) (rows : seq (seq A)) :
    seq (seq A) :=
  if first is _ :: first' then
    if all (fun r => 0 < size r)%N rows then
      flatten [seq take 1 r | r <- rows]
        :: zip_star_aux first' [seq behead r | r <- rows]
    else [::]
  else [::].

Definition zip_star {A : Type} (rows : seq (seq A)) : seq (seq A) :=
  zip_star_aux (head [::] rows) rows.

(** ** [class VGG19] *)

Module VGG19.

(** A layer of the network maps a tensor to a tensor, or raises. *)
Definition layer : Type := array -> result array.

Section Forward.

(** [self.features]: the layers of the pretrained network, in order. *)
Variable features : seq layer.

(** The loop of [forward], from layer number [idx] on. *)
Fixpoint forward_from (idx : nat) (layers : seq layer) (x : array)
    (feature_maps : seq array) : result (seq array) :=
  if layers is l :: layers' then
    let* x := l x in
    forward_from idx.+1 layers' x
      (if idx == 3%N then rcons feature_maps x else feature_maps)
  else Ok feature_maps.

Definition forward (x : array) : result (seq array) :=
  forward_from 0 features x [::].

End Forward.

End VGG19.

(** ** [class Fusion] *)

Module Fusion.

(** The array objects of the process, addressed by position.  The caller's
    images live here, and so do the arrays that [fuse] assigns in place. *)
Definition store : Type := seq array.
Definition loc : Type := nat.

Definition load (st : store) (l : loc) : array := nth (zeros [:: 0%N]) st l.

Definition alloc (st : store) (a : array) : loc * store :=
  (size st, rcons st a).

Definition update (st : store) (l : loc) (a : array) : store :=
  set_nth (zeros [:: 0%N]) st l a.

(** What a Python variable bound to array data designates: an array
    object, or the view [a[:, :, 0]] of one. *)
Inductive aref : Type :=
  | Whole (l : loc)
  | Axis2_0 (l : loc).

Definition read (st : store) (r : aref) : result array :=
  match r with
  | Whole l => Ok (load st l)
  | Axis2_0 l => slice_axis2 (load st l) 0
  end.

Section Methods.

(** [self.model.features]. *)
Variable features : seq VGG19.layer.

Definition model : array -> result (seq array) := VGG19.forward features.

Definition _is_gray (img : array) : result bool :=
  if (ndim img < 3)%N then Ok true
  else if nth 0%N (shape img) 2 == 1%N then Ok true
  else
    let* b := slice_axis2 img 0 in
    let* g := slice_axis2 img 1 in
    let* r := slice_axis2 img 2 in
    let* bg := np_op2 (fun x y : R => x == y) b g in
    let* br := np_op2 (fun x y : R => x == y) b r in
    if all_true bg && all_true br then Ok true
    else Ok false.

Definition _RGB_to_YCbCr (img_RGB : array) : result array :=
  let img_RGB := amap (fun x => x / 255%:R) img_RGB in
  cvtColor img_RGB COLOR_RGB2YCrCb.

Definition _YCbCr_to_RGB (img_YCbCr : array) : result array :=
  cvtColor img_YCbCr COLOR_YCrCb2RGB.

Definition _softmax (tensor : array) : result array :=
  let tensor := amap exp tensor in
  let* total := sum_dim1_keep tensor in
  torch_op2 (fun x y => x / y) tensor total.

(** One image of [_tranfer_to_tensor]; [astype] copies, so the tensor
    shares no memory with [image]. *)
Definition to_tensor (image : array) : result array :=
  let np_input := image in
  if ndim np_input == 2%N then Ok (repeat3_new_axes np_input)
  else
    let* t := transpose np_input [:: 2%N; 0%N; 1%N] in
    Ok (new_axis0 t).

Definition _tranfer_to_tensor (st : store) (normalized_images : seq aref) :
    result (seq array) :=
  mapM (fun r => let* image := read st r in to_tensor image) normalized_images.

(** The first loop of [_fuse]: the summed feature maps of one image. *)
Definition sum_maps_of (tensor_img : array) : result (seq array) :=
  let* feature_maps := model tensor_img in
  mapM sum_dim1_keep feature_maps.

(** The weights of one tap depth. *)
Definition weights_of (size : seq nat) (sum_maps : seq array) : result array :=
  let* features := cat_dim1 sum_maps in
  let* resized := interpolate features size in
  let* weights := _softmax resized in
  interpolate weights size.

(** The inner loop: [current_fusion += tensor_img * weights[:, idx]]. *)
Fixpoint accumulate (weights : array) (idx : nat) (tensors : seq array)
    (current_fusion : array) : result array :=
  if tensors is tensor_img :: tensors' then
    let* w := slice_axis1 weights idx in
    let* term := torch_op2 *%R tensor_img w in
    let* current_fusion := torch_iadd current_fusion term in
    accumulate weights idx.+1 tensors' current_fusion
  else Ok current_fusion.

(** The body of the loop over tap depths, up to the update of
    [max_fusion]. *)
Definition current_fusion_of (images_to_tensors : seq array)
    (sum_maps : seq array) : result array :=
  let first := head (zeros [::]) images_to_tensors in
  let size := drop 2 (shape first) in
  let* weights := weights_of size sum_maps in
  accumulate weights 0 images_to_tensors (zeros (shape first)).

Fixpoint depth_loop (images_to_tensors : seq array)
    (depths : seq (seq array)) (max_fusion : option array) :
    result (option array) :=
  if depths is sum_maps :: depths' then
    let* current_fusion := current_fusion_of images_to_tensors sum_maps in
    let* max_fusion :=
      match max_fusion with
      | None => Ok current_fusion
      | Some m => torch_op2 Num.max m current_fusion
      end in
    depth_loop images_to_tensors depths' (Some max_fusion)
  else Ok max_fusion.

Definition _fuse (images_to_tensors : seq array) : result array :=
  let* imgs_sum_maps := mapM sum_maps_of images_to_tensors in
  let* max_fusion :=
    depth_loop images_to_tensors (zip_star imgs_sum_maps) None in
  match max_fusion with
  | None => Raise AttributeError   (* [None.cpu()] *)
  | Some max_fusion =>
      let output := squeeze max_fusion in
      if ndim output == 3%N then transpose output [:: 1%N; 2%N; 0%N]
      else Ok output
  end.

(** The first loop of [fuse]: [YCbCr_images] and [normalized_images]. *)
Fixpoint convert_loop (st : store) (input_images : seq loc) :
    result (seq (option loc) * seq aref * store) :=
  if input_images is img :: rest then
    let* gray := _is_gray (load st img) in
    if ~~ gray then
      let* ycbcr := _RGB_to_YCbCr (load st img) in
      let (l, st) := alloc st ycbcr in
      let* r := convert_loop st rest in
      let '(YCbCr_images, normalized_images, st) := r in
      Ok (Some l :: YCbCr_images, Axis2_0 l :: normalized_images, st)
    else
      let (l, st) := alloc st (amap (fun x => x / 255%:R) (load st img)) in
      let* r := convert_loop st rest in
      let '(YCbCr_images, normalized_images, st) := r in
      Ok (None :: YCbCr_images, Whole l :: normalized_images, st)
  else Ok ([::], [::], st).

(** The last loop of [fuse]. *)
Fixpoint reconstruct_loop (st : store) (input_images : seq loc)
    (YCbCr_images : seq (option loc)) (fused_img : array) :
    result (array * store) :=
  if input_images is img :: rest then
    let* gray := _is_gray (load st img) in
    if ~~ gray then
      match head None YCbCr_images with
      | None => Raise TypeError   (* the placeholder [-1] is not an array *)
      | Some l =>
          let* assigned := assign_axis2_0 (load st l) fused_img in
          let st := update st l assigned in
          let* fused_img := _YCbCr_to_RGB (load st l) in
          let fused_img := clip fused_img 0 1 in
          reconstruct_loop st rest (behead YCbCr_images) fused_img
      end
    else reconstruct_loop st rest (behead YCbCr_images) fused_img
  else Ok (fused_img, st).

(** [fuse], up to the final scaling: the float image and the store. *)
Definition fuse_float (st : store) (input_images : seq loc) :
    result (array * store) :=
  let* r := convert_loop st input_images in
  let '(YCbCr_images, normalized_images, st) := r in
  let* images_to_tensors := _tranfer_to_tensor st normalized_images in
  let* output := _fuse images_to_tensors in
  let* fused_img := slice_axis2 output 0 in
  reconstruct_loop st input_images YCbCr_images fused_img.

Definition fuse (st : store) (input_images : seq loc) :
    result (ndarray Z * store) :=
  let* r := fuse_float st input_images in
  let (fused_img, st) := r in
  Ok (astype_uint8 (amap (fun x => x * 255%:R) fused_img), st).

End Methods.

End Fusion.

(** ** Definitions that follow the specification's words *)

Module Spec.

Import Fusion.

Section Spec.

Variable features : seq VGG19.layer.

(** The layout of the result of [_fuse]: batch axis removed, channels
    last. *)
Definition output_layout (fused : array) : result array :=
  let output := squeeze fused in
  if ndim output == 3%N then transpose output [:: 1%N; 2%N; 0%N]
  else Ok output.

(** Fusion at a single tap depth: the softmax-weighted sum of the
    images, with no maximum across depths. *)
Definition single_depth_fuse (images_to_tensors : seq array) : result array :=
  let* imgs_sum_maps := mapM (sum_maps_of features) images_to_tensors in
  let sum_maps := [seq head (zeros [::]) maps | maps <- imgs_sum_maps] in
  let* fused := current_fusion_of images_to_tensors sum_maps in
  output_layout fused.

(** The number of channels of an image with a channel axis. *)
Definition channels (img : array) : nat := nth 0%N (shape img) 2.

(** An image of the data model: single-channel (two-dimensional, or with
    a channel axis of length 1) or of 3 channels. *)
Definition image (img : array) : bool :=
  [|| (ndim img < 3)%N, channels img == 1%N | channels img == 3%N].

(** Channel [k] of the pixel at [ix]. *)
Definition pixel (img : array) (ix : seq nat) (k : nat) : R :=
  get img (take 2 ix ++ k :: drop 2 ix).

(** The three channels are pixel-wise identical. *)
Definition channels_identical (img : array) : Prop :=
  forall ix, in_bounds (take 2 (shape img) ++ drop 3 (shape img)) ix ->
    pixel img ix 0 = pixel img ix 1 /\ pixel img ix 0 = pixel img ix 2.

(** [isGray]: fewer than 3 dimensions, or a single channel, or three
    identical channels. *)
Definition isGray (img : array) : Prop :=
  [\/ (ndim img < 3)%N, channels img = 1%N
    | channels img = 3%N /\ channels_identical img].

(** An image of 8-bit pixel values. *)
Definition eight_bit (img : array) : Prop :=
  forall ix, in_bounds (shape img) ix -> 0 <= get img ix <= 255%:R.

(** The fused result is clipped to [[0, 1]] before the final scaling. *)
Definition clipped_before_scaling (st : store) (input_images : seq loc) :
    Prop :=
  forall fused st',
    fuse_float features st input_images = Ok (fused, st') ->
    forall ix, in_bounds (shape fused) ix -> 0 <= get fused ix <= 1.

End Spec.

(** A call fails with the exception class called [name]. *)
Definition fails_with (name : string) (A : Type) (r : result A) : Prop :=
  exists2 e, r = Raise e & exn_name e = name.

End Spec.

Import Fusion.

(** * Properties *)

(** ** The feature extractor taps one depth *)

Section TapDepth.

Variable features : seq VGG19.layer.

Lemma forward_from_size idx layers x acc fms :
  VGG19.forward_from idx layers x acc = Ok fms ->
  size fms = (size acc + ((idx <= 3) && (3 < idx + size layers)))%N.
Proof.
elim: layers idx x acc fms => [|l layers IH] idx x acc fms /=.
  by case=> <-; rewrite addn0 ltnNge andbN addn0.
case: (l x) => [y|e] //= /IH ->.
rewrite addnS -addSn; case: (ltngtP idx 3) => h //=.
by rewrite h size_rcons addn0 addn1.
Qed.

Lemma forward_size x fms :
  (3 < size features)%N -> VGG19.forward features x = Ok fms -> size fms = 1%N.
Proof. by move=> h /forward_from_size ->; rewrite /= add0n h. Qed.

End TapDepth.

(** ** Loops in the error monad *)

Section MapM.

Variables (A B : Type) (f : A -> result B).

Lemma mapM_size s ys : mapM f s = Ok ys -> size ys = size s.
Proof.
elim: s ys => [|x s IH] ys /=; first by case=> <-.
case: (f x) => [y|e] //=; case: (mapM f s) IH => [zs|e] //= IH [<-] /=.
by rewrite (IH zs).
Qed.

Lemma mapM_all (P : pred B) s ys :
  (forall x y, f x = Ok y -> P y) -> mapM f s = Ok ys -> all P ys.
Proof.
move=> fP; elim: s ys => [|x s IH] ys /=; first by case=> <-.
case fx: (f x) => [y|e] //=; case: (mapM f s) IH => [zs|e] //= IH [<-] /=.
by rewrite (fP _ _ fx) IH.
Qed.

End MapM.

Lemma zip_star_single (A : Type) (x0 : A) (rows : seq (seq A)) :
  (0 < size rows)%N -> all (fun r => size r == 1%N) rows ->
  zip_star rows = [:: [seq head x0 r | r <- rows]].
Proof.
case: rows => [|r rows] //= _ /andP[r1 rows1].
rewrite /zip_star /=; case: r r1 => [|x [|y r]] //= _.
have -> : all (fun r => 0 < size r)%N rows.
  by apply: sub_all rows1 => r /eqP ->.
congr (_ :: _); congr (_ :: _).
by elim: rows rows1 => [|[|z [|? ?]] rows IH] //= /IH ->.
Qed.

Lemma depth_loop_single tensors sum_maps :
  depth_loop tensors [:: sum_maps] None =
  (let* current_fusion := current_fusion_of tensors sum_maps in
   Ok (Some current_fusion)).
Proof. by rewrite [LHS]/=; case: (current_fusion_of tensors sum_maps). Qed.

Section SingleDepth.

Variable features : seq VGG19.layer.
Hypothesis deep : (3 < size features)%N.

Lemma sum_maps_of_size tensor_img maps :
  sum_maps_of features tensor_img = Ok maps -> size maps = 1%N.
Proof.
rewrite /sum_maps_of /model.
case fw: (VGG19.forward features tensor_img) => [fms|e] //= /mapM_size ->.
exact: forward_size fw.
Qed.

Lemma _fuse_single_depth tensors :
  (0 < size tensors)%N ->
  _fuse features tensors = Spec.single_depth_fuse features tensors.
Proof.
move=> tensors_gt0; rewrite /_fuse /Spec.single_depth_fuse.
case maps_eq: (mapM _ tensors) => [maps|e] //=.
rewrite (@zip_star_single _ (zeros [::])).
- by rewrite (mapM_size maps_eq).
- apply: (@mapM_all _ _ _ (fun r => size r == 1%N) _ _ _ maps_eq) => x y.
  by move/sum_maps_of_size ->.
rewrite depth_loop_single /Spec.output_layout.
by case: (current_fusion_of tensors _).
Qed.

End SingleDepth.

(** C9. A network of more than three layers captures exactly one feature
    map, the activation of layer 3; the loop over tap depths of [_fuse]
    then runs once, its maximum is never taken, and [_fuse] is the
    single-depth softmax-weighted sum. *)
Theorem one_tap_depth (features : seq VGG19.layer) (tensors : seq array) :
  (3 < size features)%N -> (0 < size tensors)%N ->
  (forall x fms, VGG19.forward features x = Ok fms -> size fms = 1%N) /\
  _fuse features tensors = Spec.single_depth_fuse features tensors.
Proof.
move=> deep tensors_gt0; split; first by move=> x fms; exact: forward_size.
exact: _fuse_single_depth.
Qed.

(** A network of four layers that leave their input unchanged, and one
    2 x 2 tensor. *)
Definition four_layers : seq VGG19.layer := nseq 4 (fun x => Ok x).

Lemma one_tap_depth_witness :
  (3 < size four_layers)%N /\ (0 < size [:: zeros [:: 1; 3; 2; 2]%N])%N /\
  (forall x fms, VGG19.forward four_layers x = Ok fms -> size fms = 1%N) /\
  _fuse four_layers [:: zeros [:: 1; 3; 2; 2]%N]
  = Spec.single_depth_fuse four_layers [:: zeros [:: 1; 3; 2; 2]%N].
Proof.
split; first by [].
split; first by [].
exact: (@one_tap_depth four_layers [:: zeros [:: 1; 3; 2; 2]%N] isT isT).
Defined.

(** ** Array indices and broadcasting *)

Section ArrayFacts.

Local Open Scope nat_scope.

Lemma in_bounds_size sh ix : in_bounds sh ix -> size ix = size sh.
Proof.
by elim: sh ix => [|n sh IH] [|i ix] //= /andP[_ /IH ->].
Qed.

Lemma indicesP sh ix : reflect (in_bounds sh ix) (ix \in indices sh).
Proof.
apply: (iffP idP); elim: sh ix => [|n sh IH] ix /=.
- by rewrite inE => /eqP ->.
- case/flattenP => s /mapP[i]; rewrite mem_iota add0n /= => lt_in ->.
  by case/mapP => jx /IH ok ->; rewrite /= lt_in.
- by case: ix.
- case: ix => [|i ix] //= /andP[lt_in /IH ok].
  apply/flattenP; exists [seq i :: jx | jx <- indices sh].
    by apply/mapP; exists i; rewrite // mem_iota.
  by apply/mapP; exists ix.
Qed.

Lemma bshape_rev_same s : bshape_rev s s = Some s.
Proof. by elim: s => [|n s IH] //=; rewrite eqxx /= IH. Qed.

Lemma broadcast_shape_same s : broadcast_shape s s = Some s.
Proof. by rewrite /broadcast_shape bshape_rev_same /= revK. Qed.

Lemma bindex_in_bounds sh ix : in_bounds sh ix -> bindex sh ix = ix.
Proof.
move=> ok; rewrite /bindex (in_bounds_size ok) subnn drop0.
elim: sh ix ok => [|n sh IH] [|i ix] //= /andP[lt_in /IH ->].
by case: eqP lt_in => // ->; rewrite ltnS leqn0 => /eqP ->.
Qed.

End ArrayFacts.

(** ** [_is_gray] *)

Section IsGray.

Local Open Scope nat_scope.

Lemma all_true_eq (sh : seq nat) (f g : seq nat -> R) :
  reflect (forall ix, in_bounds sh ix -> f ix = g ix)
          (all_true (NdArray sh (fun ix => f ix == g ix))).
Proof.
rewrite /all_true /=; apply: (iffP allP) => [h ix ok|h ix in_ix].
  by apply/eqP/h/indicesP.
by rewrite h //; apply/indicesP.
Qed.

Lemma eq_all_true (sh : seq nat) (f g : seq nat -> bool) :
  (forall ix, in_bounds sh ix -> f ix = g ix) ->
  all_true (NdArray sh f) = all_true (NdArray sh g).
Proof.
move=> fg; rewrite /all_true; apply: eq_in_all => ix in_ix.
by apply: fg; apply/indicesP.
Qed.

Lemma _is_gray_3channels (img : array) :
  2 < ndim img -> Spec.channels img = 3 ->
  _is_gray img =
  Ok (all_true (NdArray (take 2 (shape img) ++ drop 3 (shape img))
                  (fun ix => Spec.pixel img ix 0 == Spec.pixel img ix 1))
      && all_true (NdArray (take 2 (shape img) ++ drop 3 (shape img))
                     (fun ix => Spec.pixel img ix 0 == Spec.pixel img ix 2))).
Proof.
rewrite /_is_gray /Spec.channels /ndim ltnNge.
case: img => [[|h [|w [|c rest]]] px] //= _ -> /=.
rewrite /np_op2 /broadcast2 /= broadcast_shape_same /=.
set sh := h :: w :: rest.
have E k : all_true (NdArray sh (fun ix =>
      px (take 2 (bindex sh ix) ++ 0 :: drop 2 (bindex sh ix))
      == px (take 2 (bindex sh ix) ++ k :: drop 2 (bindex sh ix))))
    = all_true (NdArray sh (fun ix =>
      px (take 2 ix ++ 0 :: drop 2 ix) == px (take 2 ix ++ k :: drop 2 ix))).
  by apply: eq_all_true => ix ok; rewrite bindex_in_bounds.
by rewrite !E /Spec.pixel /= drop0 -/sh; case: (_ && _).
Qed.

End IsGray.

(** C8. On an image of the data model, [_is_gray] returns [True] exactly
    when the image has fewer than 3 dimensions, or a single channel, or
    three pixel-wise identical channels, and [False] otherwise. *)
Theorem _is_gray_exact (img : array) :
  Spec.image img ->
  (Spec.isGray img -> _is_gray img = Ok true) /\
  (~ Spec.isGray img -> _is_gray img = Ok false).
Proof.
rewrite /Spec.image; case: (ltnP (ndim img) 3) => [lt3 _|ge3] /=.
  by split=> [_|[]]; [rewrite /_is_gray lt3 | constructor 1].
case: eqP => [c1 _|nc1 /= /eqP c3].
  split=> [_|[]]; last by constructor 2.
  by rewrite /_is_gray ltnNge ge3 /= -/(Spec.channels img) c1.
rewrite (_is_gray_3channels ge3 c3).
set sh := take 2 _ ++ _.
split=> [[|//|[_ same]]|not_gray]; first by rewrite ltnNge ge3.
  have /all_true_eq -> : forall ix, in_bounds sh ix ->
      Spec.pixel img ix 0 = Spec.pixel img ix 1 by move=> ix /same[].
  by have /all_true_eq -> : forall ix, in_bounds sh ix ->
      Spec.pixel img ix 0 = Spec.pixel img ix 2 by move=> ix /same[].
congr Ok; apply/negbTE/negP => /andP[/all_true_eq e1 /all_true_eq e2].
by apply: not_gray; constructor 3; split=> // ix ok; rewrite -e1 // -e2.
Qed.

(** A 2 x 2 image of three equal channels. *)
Definition gray_rgb : array := full [:: 2; 2; 3]%N 100%:R.

Lemma _is_gray_exact_witness :
  Spec.image gray_rgb /\
  (Spec.isGray gray_rgb -> _is_gray gray_rgb = Ok true) /\
  (~ Spec.isGray gray_rgb -> _is_gray gray_rgb = Ok false).
Proof. by split; [|exact: (@_is_gray_exact gray_rgb isT)]. Defined.

(** ** [procrustes] on point sets of different dimension *)

Lemma broadcast_shape_row (n m : nat) :
  broadcast_shape [:: n; m] [:: m] = Some [:: n; m].
Proof. by rewrite /broadcast_shape /= eqxx. Qed.

(** C7. When [Y] has fewer columns than [X], the padding statement of
    [procrustes] raises [TypeError]: [np.zeros(n, m-my)] passes the
    column count where the data type is expected.  No padded point set
    is ever built. *)
Theorem procrustes_padding_raises (svd : array -> array * array * array)
    (X Y : array) (scaling : bool) (reflection : Procrustes.reflection_arg)
    (n m ny my : nat) :
  shape X = [:: n; m] -> shape Y = [:: ny; my] -> (my < m)%N ->
  Procrustes.procrustes svd X Y scaling reflection = Raise TypeError.
Proof.
move=> shX shY lt_my_m; rewrite /Procrustes.procrustes shX shY.
rewrite /np_op2 /broadcast2 /mean0 /= shX shY /= !broadcast_shape_row /=.
by rewrite lt_my_m.
Qed.

(** Two points of the plane and two points of the line. *)
Definition two_points_2d : array :=
  NdArray [:: 2; 2]%N (fun ix => (nth 0%N ix 0)%:R).
Definition two_points_1d : array :=
  NdArray [:: 2; 1]%N (fun ix => (nth 0%N ix 0)%:R).

Lemma procrustes_padding_raises_witness :
  Procrustes.procrustes (fun A => (A, A, A)) two_points_2d two_points_1d
    true Procrustes.best = Raise TypeError.
Proof.
exact: (@procrustes_padding_raises _ two_points_2d two_points_1d true
          Procrustes.best 2 2 2 1 erefl erefl isT).
Defined.

(** ** The weight maps *)

Section Weights.

Local Open Scope nat_scope.

Lemma broadcast_shape_dim1 (b c h w : nat) :
  broadcast_shape [:: b; c; h; w] [:: b; 1; h; w] = Some [:: b; c; h; w].
Proof. by rewrite /broadcast_shape /= !eqxx /= orbT. Qed.

Lemma interpolateP t size out :
  interpolate t size = Ok out ->
  exists b c hin win h w,
    [/\ shape t = [:: b; c; hin; win], size = [:: h; w],
        [&& 0 < c, 0 < hin, 0 < win, 0 < h & 0 < w]
      & out = NdArray [:: b; c; h; w]
                (fun ix => get t [:: nth 0 ix 0; nth 0 ix 1;
                                     (nth 0 ix 2 * hin) %/ h;
                                     (nth 0 ix 3 * win) %/ w])].
Proof.
rewrite /interpolate.
case: (shape t) => [|b [|c [|hin [|win [|? ?]]]]] //.
case: size => [|h [|w [|? ?]]] //.
case: ifP => // pos [<-].
by exists b, c, hin, win, h, w.
Qed.

(** The softmax of a four-dimensional tensor, element by element. *)
Lemma _softmaxP (t : array) (b c h w : nat) :
  shape t = [:: b; c; h; w] ->
  _softmax t =
  Ok (NdArray [:: b; c; h; w] (fun ix =>
        exp (get t (bindex [:: b; c; h; w] ix))
        / \sum_(k < c) exp (get t (take 1 (bindex [:: b; 1; h; w] ix)
                                    ++ (k : nat)
                                    :: drop 2 (bindex [:: b; 1; h; w] ix))))%R).
Proof.
move=> sh; rewrite /_softmax /sum_dim1_keep /= sh /=.
by rewrite /torch_op2 /broadcast2 /= sh broadcast_shape_dim1.
Qed.

Lemma stretch_index (n i : nat) : i < n -> (if n == 1 then 0 else i) = i.
Proof. by case: eqP => // ->; rewrite ltnS leqn0 => /eqP. Qed.

Lemma softmax_sum_to_one (c : nat) (x : nat -> R) :
  0 < c ->
  (\sum_(k < c) (exp (x k) / \sum_(l < c) exp (x l)) = 1)%R.
Proof.
move=> c_gt0; rewrite -mulr_suml divff //.
apply: lt0r_neq0; case: c c_gt0 => // c _.
rewrite big_ord_recl; apply: ltr_wpDr; last exact: exp_gt0.
by apply: sumr_ge0 => k _; apply: ltW; exact: exp_gt0.
Qed.

End Weights.

(** The weight map of a tap depth: its shape, its sign and its sums
    across channels. *)
Lemma weights_ofP (size : seq nat) (sum_maps : seq array) (weights : array) :
  weights_of size sum_maps = Ok weights ->
  exists B N h w,
    [/\ shape weights = [:: B; N; h; w], size = [:: h; w],
        forall ix, in_bounds [:: B; N; h; w] ix -> 0 < get weights ix
      & forall b0 i j, (b0 < B)%N -> (i < h)%N -> (j < w)%N ->
          \sum_(k < N) get weights [:: b0; (k : nat); i; j] = 1].
Proof.
rewrite /weights_of; case: (cat_dim1 sum_maps) => [features|e] //=.
case r_eq: (interpolate features size) => [resized|e] //=.
have [b [c [hin [win [h [w [sh_f size_eq pos resized_eq]]]]]]] := interpolateP r_eq.
have sh_r : shape resized = [:: b; c; h; w] by rewrite resized_eq.
rewrite (_softmaxP sh_r) /= => /interpolateP.
move=> [b' [c' [h1 [w1 [h' [w' [/= [<- <- <- <-]]]]]]]].
rewrite size_eq => -[<- <-] _ -> /= {b' c' h1 w1 h' w'}.
case/and5P: pos => c_gt0 _ _ h_gt0 w_gt0.
have sum_gt0 (x : nat -> R) : 0 < \sum_(l < c) exp (x l).
  case: (c) c_gt0 => // c' _.
  rewrite big_ord_recl; apply: ltr_wpDr; last exact: exp_gt0.
  by apply: sumr_ge0 => k _; apply: ltW; exact: exp_gt0.
exists b, c, h, w; split=> // [ix ok|b0 i j lt_b lt_h lt_w].
  apply: divr_gt0; first exact: exp_gt0.
  exact: (sum_gt0 (fun l : nat => get resized [:: _; l; _; _])).
rewrite !mulnK // -[RHS](@softmax_sum_to_one c
    (fun l => get resized [:: b0; l; i; j])) //.
apply: eq_bigr => k _.
have ok : in_bounds [:: b; c; h; w] [:: b0; (k : nat); i; j].
  by rewrite /= lt_b ltn_ord lt_h lt_w.
by rewrite (bindex_in_bounds ok) !stretch_index.
Qed.

(** C2. The weight map of a tap depth sums to 1 across its channels (one
    per image) at every pixel, after the softmax and the interpolation
    that follows it; in particular within 1e-5. *)
Theorem weights_sum_to_one (size : seq nat) (sum_maps : seq array)
    (weights : array) :
  weights_of size sum_maps = Ok weights ->
  forall ix, in_bounds (shape weights) ix ->
    let total := \sum_(k < nth 0%N (shape weights) 1)
                   get weights (take 1 ix ++ (k : nat) :: drop 2 ix) in
    total = 1 /\ `|total - 1| <= (10%:R ^+ 5)^-1.
Proof.
move=> /weights_ofP[B [N [h [w [-> _ _ sum1]]]]].
case=> [|b0 [|k0 [|i [|j [|? ?]]]]] //=; rewrite ?andbF //.
move=> /and5P[lt_b _ lt_h lt_w _].
by rewrite sum1 // subrr normr0; split=> //; rewrite invr_ge0 exprn_ge0.
Qed.

(** Two flat 2 x 2 saliency maps and their weight map. *)
Definition two_flat_maps : seq array :=
  [:: zeros [:: 1; 1; 2; 2]%N; zeros [:: 1; 1; 2; 2]%N].

Definition two_flat_weights : array :=
  if weights_of [:: 2; 2]%N two_flat_maps is Ok w then w else zeros [::].

Lemma weights_sum_to_one_witness :
  weights_of [:: 2; 2]%N two_flat_maps = Ok two_flat_weights /\
  forall ix, in_bounds (shape two_flat_weights) ix ->
    let total := \sum_(k < nth 0%N (shape two_flat_weights) 1)
                   get two_flat_weights (take 1 ix ++ (k : nat) :: drop 2 ix) in
    total = 1 /\ `|total - 1| <= (10%:R ^+ 5)^-1.
Proof.
split; first by [].
exact: (@weights_sum_to_one [:: 2; 2]%N two_flat_maps two_flat_weights erefl).
Defined.

(** ** Fusion of identical images *)

Section Identical.

Local Open Scope nat_scope.

Lemma mapM_cons (A B : Type) (f : A -> result B) (x : A) (s : seq A) :
  mapM f (x :: s) =
  (let* y := f x in let* ys := mapM f s in Ok (y :: ys)).
Proof. by []. Qed.

Lemma mapM_nseq (A B : Type) (f : A -> result B) (n : nat) (x : A) ys :
  mapM f (nseq n.+1 x) = Ok ys -> exists2 y, f x = Ok y & ys = nseq n.+1 y.
Proof.
elim: n ys => [|n IH] ys.
  by rewrite /=; case: (f x) => [y|e] //= [<-]; exists y.
change (nseq n.+2 x) with (x :: nseq n.+1 x).
move: (nseq n.+1 x) IH => s IH; rewrite mapM_cons.
case fx: (f x) => [y|e] //=; case rest: (mapM f s) => [zs|e] //= [<-].
have [z] := IH zs rest; rewrite fx => -[<-] ->.
by exists y.
Qed.

Lemma cat_get_nseq (n : nat) (m : array) (b k : nat) (rest : seq nat) :
  nth 0 (shape m) 1 = 1 -> k < n ->
  cat_get (nseq n m) [:: b, k & rest] = get m [:: b, 0 & rest].
Proof.
move=> one; elim: n k => [|n IH] [|k] //=; rewrite one //=.
by rewrite ltnS subn1 drop0 => /IH.
Qed.

Lemma sumn_nseq_map (n : nat) (m : array) :
  sumn [seq nth 0 (shape u) 1 | u <- nseq n m] = n * nth 0 (shape m) 1.
Proof. by rewrite map_nseq sumn_nseq mulnC. Qed.

(** The weights of [n] identical saliency maps are [1/n] everywhere. *)
Lemma weights_of_identical (size : seq nat) (n : nat) (m weights : array) :
  nth 0 (shape m) 1 = 1 ->
  weights_of size (nseq n.+1 m) = Ok weights ->
  [/\ shape weights = [:: nth 0 (shape m) 0, n.+1 & size], seq.size size = 2
    & forall ix, in_bounds (shape weights) ix ->
        get weights ix = (n.+1%:R^-1)%R].
Proof.
move=> one; rewrite /weights_of.
case cat_eq: (cat_dim1 _) => [features|e] //=.
have features_eq : features =
    NdArray (take 1 (shape m) ++ n.+1 :: drop 2 (shape m))
      (cat_get (nseq n.+1 m)).
  move: cat_eq; rewrite /cat_dim1 [nseq _ _]/=.
  case: ifP => // _; case: ifP => // _ [<-] /=.
  by rewrite -/(nseq n.+1 m) sumn_nseq_map one muln1.
case r_eq: (interpolate features size) => [resized|e] //=.
have [b [c [hin [win [h [w [sh_f size_eq pos resized_eq]]]]]]] := interpolateP r_eq.
have sh_r : shape resized = [:: b; c; h; w] by rewrite resized_eq.
rewrite (_softmaxP sh_r) /= => /interpolateP.
move=> [b' [c' [h1 [w1 [h' [w' [/= [<- <- <- <-]]]]]]]].
rewrite size_eq => -[<- <-] _ -> /= {b' c' h1 w1 h' w'}.
move: sh_f; rewrite features_eq /=.
case sh_m: (shape m) => [|bm [|cm rest]] //= -[<- <- rest_eq].
split=> // ix; case/and5P: pos => c_gt0 _ _ h_gt0 w_gt0.
case: ix => [|b0 [|k [|i [|j [|? ?]]]]] //=; rewrite ?andbF //.
move=> /and5P[lt_b lt_k lt_h lt_w _].
have ok : in_bounds [:: bm; n.+1; h; w] [:: b0; k; i; j].
  by rewrite /= lt_b lt_k lt_h lt_w.
rewrite !mulnK // (bindex_in_bounds ok) !stretch_index // resized_eq /=.
rewrite features_eq /=.
set v := get m [:: b0; 0; (i * hin) %/ h; (j * win) %/ w].
have E (l : nat) : l < n.+1 ->
    (if l < nth 0 (shape m) 1
     then get m [:: b0; l; (i * hin) %/ h; (j * win) %/ w]
     else cat_get (nseq n m)
            [:: b0; l - nth 0 (shape m) 1; (i * hin) %/ h; (j * win) %/ w])
    = v.
  move=> lt_l; rewrite /v.
  by rewrite -(@cat_get_nseq n.+1 m b0 l [:: (i * hin) %/ h; (j * win) %/ w]).
rewrite (E _ lt_k) (eq_bigr (fun=> exp v)); first by move=> l _; rewrite E.
rewrite sumr_const card_ord -[X in (X / _)%R]mulr1 -mulr_natr.
by rewrite -mulf_div divff ?mul1r ?div1r //; apply: lt0r_neq0; exact: exp_gt0.
Qed.

End Identical.

Section WeightedSum.

Local Open Scope nat_scope.

Lemma broadcast_shape_4_3 (b c h w B : nat) :
  broadcast_shape [:: b; c; h; w] [:: B; h; w] =
  if (c == B) || (B == 1) then Some [:: b; c; h; w]
  else if c == 1 then Some [:: b; B; h; w] else None.
Proof.
rewrite /broadcast_shape /= !eqxx /=.
by case: ifP => //= _; case: ifP.
Qed.

Lemma accumulate_cons (weights t : array) (idx : nat) (ts : seq array)
    (acc : array) :
  accumulate weights idx (t :: ts) acc =
  (let* acc' := (let* wk := slice_axis1 weights idx in
                 let* term := torch_op2 *%R t wk in
                 torch_iadd acc term) in
   accumulate weights idx.+1 ts acc').
Proof.
rewrite [LHS]/=; case: (slice_axis1 weights idx) => //= wk.
by case: (torch_op2 _ t wk).
Qed.

Variables (weights t : array) (B N b c h w : nat) (u : R).
Hypothesis weights_shape : shape weights = [:: B; N; h; w].
Hypothesis t_shape : shape t = [:: b; c; h; w].
Hypothesis weights_const :
  forall ix, in_bounds (shape weights) ix -> get weights ix = u.

(** One step of the inner loop on the tensor [t]. *)
Lemma accumulate_step (idx : nat) (acc : array) :
  idx < N -> shape acc = [:: b; c; h; w] ->
  forall acc',
    (let* wk := slice_axis1 weights idx in
     let* term := torch_op2 *%R t wk in
     torch_iadd acc term) = Ok acc' ->
    shape acc' = [:: b; c; h; w] /\
    forall ix, in_bounds [:: b; c; h; w] ix ->
      get acc' ix = (get acc ix + get t ix * u)%R.
Proof.
move=> lt_idx acc_shape acc'.
rewrite /slice_axis1 weights_shape lt_idx /=.
rewrite /torch_op2 /broadcast2 t_shape /= broadcast_shape_4_3.
case: ifP => [bc|nbc] /=; last first.
  case: ifP => // /eqP c1 /=; move: nbc; rewrite c1.
  rewrite /torch_iadd acc_shape c1 /broadcast_shape /= !eqxx /=.
  move=> nbc; rewrite nbc /=; case: eqP => // -[B1].
  by rewrite B1 eqxx in nbc.
rewrite /torch_iadd acc_shape /= broadcast_shape_same eqxx => -[<-] /=.
split=> // ix ok; rewrite !(@bindex_in_bounds [:: b; c; h; w] ix ok).
congr (_ + _ * _)%R.
case: ix ok => [|b0 [|k [|i [|j [|? ?]]]]] //=; rewrite ?andbF //.
move=> /and5P[lt_b lt_k lt_h lt_w _].
rewrite /bindex /= (stretch_index lt_h) (stretch_index lt_w).
have lt_k' : (if B == 1 then 0 else k) < B.
  by case: (B =P 1) bc => [-> //|_]; rewrite orbF => /eqP cB; rewrite -cB.
by apply: weights_const; rewrite weights_shape /= lt_k' lt_idx lt_h lt_w.
Qed.

Lemma accumulate_identical (n idx : nat) (acc fused : array) :
  idx + n <= N -> shape acc = [:: b; c; h; w] ->
  accumulate weights idx (nseq n t) acc = Ok fused ->
  shape fused = [:: b; c; h; w] /\
  forall ix, in_bounds [:: b; c; h; w] ix ->
    get fused ix = (get acc ix + n%:R * (get t ix * u))%R.
Proof.
elim: n idx acc => [|n IH] idx acc le_N acc_shape.
  by case=> <-; split=> // ix _; rewrite mul0r addr0.
change (nseq n.+1 t) with (t :: nseq n t); rewrite accumulate_cons.
case step: (let* wk := slice_axis1 weights idx in
            let* term := torch_op2 *%R t wk in
            torch_iadd acc term) => [acc'|e] //=.
have lt_idx : idx < N by apply: leq_trans le_N; rewrite addnS ltnS leq_addr.
have [acc'_shape acc'_get] := accumulate_step lt_idx acc_shape step.
rewrite -addSnnS in le_N.
move=> /(IH _ _ le_N acc'_shape) [-> fused_get]; split=> // ix ok.
by rewrite fused_get // acc'_get // -addrA -[n.+1]addn1 natrD mulrDl mul1r
           [(_ + n%:R * _)%R]addrC.
Qed.

End WeightedSum.

(** ** The layout of the fused output *)

Section Layout.

Local Open Scope nat_scope.

Lemma sum_dim1_keep_channels (x m : array) :
  sum_dim1_keep x = Ok m -> nth 0 (shape m) 1 = 1.
Proof.
by rewrite /sum_dim1_keep; case: (shape x) => [|b [|c rest]] //= [<-].
Qed.

Lemma unsqueeze_in_bounds (sh ix : seq nat) :
  in_bounds [seq n <- sh | n != 1] ix -> in_bounds sh (unsqueeze_index sh ix).
Proof.
elim: sh ix => [|n sh IH] ix //=.
case: eqP => [->|_] /=; first by move/IH.
by case: ix => [|i ix] //= /andP[-> /IH].
Qed.

Lemma transpose_120 (A : Type) (a : ndarray A) (c h w : nat) :
  shape a = [:: c; h; w] ->
  transpose a [:: 1; 2; 0] =
  Ok (NdArray [:: h; w; c]
        (fun ix => get a [:: nth 0 ix 2; nth 0 ix 0; nth 0 ix 1])).
Proof. by rewrite /transpose /ndim => ->. Qed.

Lemma same_sym (A : Type) (a b : ndarray A) : same a b -> same b a.
Proof. by case=> sh e; split=> // ix ok; rewrite e // sh. Qed.

Lemma same_trans (A : Type) (a b c : ndarray A) :
  same a b -> same b c -> same a c.
Proof.
case=> sh_ab e_ab [sh_bc e_bc]; split; first by rewrite sh_ab.
by move=> ix ok; rewrite e_ab // e_bc // -sh_ab.
Qed.

Lemma squeeze_same (a b : array) : same a b -> same (squeeze a) (squeeze b).
Proof.
case=> sh e; split; first by rewrite /= sh.
by move=> ix /= ok; rewrite -sh; apply: e; exact: unsqueeze_in_bounds.
Qed.

(** The layout step maps equal tensors to equal outputs. *)
Lemma output_layout_same (a b out : array) :
  same a b -> Spec.output_layout a = Ok out ->
  exists2 out', Spec.output_layout b = Ok out' & same out out'.
Proof.
move=> /squeeze_same; rewrite /Spec.output_layout.
move: (squeeze a) (squeeze b) => a' b' [sh e]; rewrite /ndim -sh.
case: ifP => [/eqP|_ [<-]]; last by exists b'.
case sh_a: (shape a') => [|c [|h [|w [|? ?]]]] // _.
rewrite (transpose_120 sh_a) (@transpose_120 _ b' c h w) -?sh // => -[<-].
eexists; first by [].
split=> //= -[|i [|j [|k [|? ?]]]] //=; rewrite ?andbF // => /and4P[? ? ? _].
by apply: e; rewrite sh_a /=; apply/and4P.
Qed.

End Layout.

Lemma _fuse_identical (features : seq VGG19.layer) (n : nat)
    (t out : array) :
  (3 < size features)%N ->
  _fuse features (nseq n.+1 t) = Ok out ->
  exists sum_maps weights,
    [/\ mapM (sum_maps_of features) (nseq n.+1 t)
          = Ok (nseq n.+1 [:: sum_maps]),
        weights_of (drop 2 (shape t)) (nseq n.+1 sum_maps) = Ok weights,
        forall ix, in_bounds (shape weights) ix ->
          get weights ix = n.+1%:R^-1
      & exists2 out', Spec.output_layout t = Ok out' & same out out'].
Proof.
move=> deep; rewrite (_fuse_single_depth deep) // /Spec.single_depth_fuse.
case maps_eq: (mapM _ _) => [maps|e] //=.
have [ms ms_eq maps_nseq] := mapM_nseq maps_eq.
have [m ms1] : exists m, ms = [:: m].
  have := sum_maps_of_size deep ms_eq.
  by case: (ms) => [|m [|? ?]] // _; exists m.
have m_chan : nth 0%N (shape m) 1 = 1%N.
  move: ms_eq; rewrite /sum_maps_of ms1; case: (model _ _) => [fms|e] //=.
  case: fms => [|fm fms] //=.
  case fm_eq: (sum_dim1_keep fm) => [m'|e] //=.
  by case: (mapM _ fms) => [?|?] //= -[<- _]; exact: sum_dim1_keep_channels fm_eq.
rewrite maps_nseq ms1 map_nseq [head _ _]/=.
rewrite /current_fusion_of [head _ _]/=.
case w_eq: (weights_of _ _) => [weights|e] //; rewrite /Py.bind.
have [w_shape size2 w_const] := weights_of_identical m_chan w_eq.
case acc_eq: (accumulate _ _ _ _) => [fused|e] // layout.
exists m, weights; split=> //.
have [b [c [h [w t_shape]]]] : exists b c h w, shape t = [:: b; c; h; w].
  by case: (shape t) size2 => [|b [|c [|h [|w [|? ?]]]]] //= _; exists b, c, h, w.
rewrite t_shape /= in w_shape.
have le_n : (0 + n.+1 <= n.+1)%N by [].
have z_shape : shape (zeros (shape t)) = [:: b; c; h; w] by rewrite /= t_shape.
have [f_shape f_get] :=
  accumulate_identical w_shape t_shape w_const le_n z_shape acc_eq.
apply: (@output_layout_same fused t out _ layout).
split; first by rewrite f_shape t_shape.
move=> ix; rewrite f_shape => /f_get -> /=.
by rewrite add0r mulrCA divff ?mulr1 // pnatr_eq0.
Qed.

(** C1. Fusing [n+1] identical tensors at the single tap depth: every
    weight is [1/(n+1)], and the weighted sum reproduces the input, so the
    output of [_fuse] is the input tensor in the output layout. *)
Theorem fuse_identical_images (features : seq VGG19.layer) (n : nat)
    (t out : array) :
  (3 < size features)%N ->
  _fuse features (nseq n.+1 t) = Ok out ->
  exists sum_maps weights,
    [/\ mapM (sum_maps_of features) (nseq n.+1 t)
          = Ok (nseq n.+1 [:: sum_maps]),
        weights_of (drop 2 (shape t)) (nseq n.+1 sum_maps) = Ok weights,
        forall ix, in_bounds (shape weights) ix ->
          get weights ix = n.+1%:R^-1
      & exists2 out', Spec.output_layout t = Ok out' & same out out'].
Proof. exact: _fuse_identical. Qed.

(** Two copies of a 2 x 2 tensor with a gradient, through the four
    identity layers. *)
Definition gradient_tensor : array :=
  NdArray [:: 1; 3; 2; 2]%N (fun ix => (nth 0%N ix 2 + nth 0%N ix 3)%:R / 4%:R).

Definition gradient_fused : array :=
  if _fuse four_layers (nseq 2 gradient_tensor) is Ok out then out
  else zeros [::].

Lemma fuse_identical_images_witness :
  (3 < size four_layers)%N /\
  _fuse four_layers (nseq 2 gradient_tensor) = Ok gradient_fused /\
  exists sum_maps weights,
    [/\ mapM (sum_maps_of four_layers) (nseq 2 gradient_tensor)
          = Ok (nseq 2 [:: sum_maps]),
        weights_of (drop 2 (shape gradient_tensor)) (nseq 2 sum_maps)
          = Ok weights,
        forall ix, in_bounds (shape weights) ix -> get weights ix = 2%:R^-1
      & exists2 out', Spec.output_layout gradient_tensor = Ok out'
                    & same gradient_fused out'].
Proof.
split; first by [].
split; first by [].
exact: (@fuse_identical_images four_layers 1 gradient_tensor gradient_fused
          isT erefl).
Defined.

(** ** The store: what [fuse] allocates and what it assigns *)

Section Frame.

Local Open Scope nat_scope.

Variable features : seq VGG19.layer.

(** [st'] extends [st] above [k]: the first [k] array objects are
    untouched. *)
Definition frame (k : nat) (st st' : store) : Prop :=
  k <= size st' /\ take k st' = take k st.

Lemma frame_refl k st : k <= size st -> frame k st st.
Proof. by []. Qed.

Lemma frame_trans k st1 st2 st3 :
  frame k st1 st2 -> frame k st2 st3 -> frame k st1 st3.
Proof. by case=> _ e12 [le3 e23]; split; rewrite // e23. Qed.

Lemma frame_le k k' st st' : k' <= k -> frame k st st' -> frame k' st st'.
Proof.
move=> le_k [le eq_take]; split; first exact: leq_trans le.
by rewrite -(take_takel st' le_k) eq_take take_takel.
Qed.

Lemma frame_load k st st' l : frame k st st' -> l < k -> load st' l = load st l.
Proof.
case=> le_k eq_take lt_l; rewrite /load.
by rewrite -(nth_take _ lt_l) eq_take nth_take.
Qed.

Lemma frame_alloc k st a : k <= size st -> frame k st (alloc st a).2.
Proof.
move=> le_k; split=> /=; first by rewrite size_rcons leqW.
by rewrite -cats1 takel_cat.
Qed.

Lemma frame_update k st l a :
  k <= size st -> k <= l -> frame k st (update st l a).
Proof.
move=> le_k le_l; split; rewrite /update.
  by rewrite size_set_nth; apply: leq_trans le_k _; rewrite leq_max leqnn orbT.
apply: (@eq_from_nth _ (zeros [:: 0])).
  by rewrite !size_take_min size_set_nth (minn_idPl le_k) (minn_idPl _) //
             (leq_trans le_k) // leq_max leqnn orbT.
move=> i; rewrite size_take_min size_set_nth => lt_i.
have lt_ik : i < k by apply: leq_trans lt_i _; exact: geq_minl.
rewrite !nth_take // nth_set_nth /=.
by case: eqP lt_ik => // ->; rewrite ltnNge le_l.
Qed.

End Frame.

Section Convert.

Local Open Scope nat_scope.

Variable features : seq VGG19.layer.

(** The value that [fuse] normalises an image to: the image divided by
    255 when it is gray, the luminance plane of its conversion when not. *)
Definition normalized_of (img : array) : result array :=
  let* gray := _is_gray img in
  if ~~ gray then
    let* ycbcr := _RGB_to_YCbCr img in
    slice_axis2 ycbcr 0
  else Ok (amap (fun x => x / 255%:R)%R img).

Definition above (k : nat) (y : option loc) : bool :=
  if y is Some l then k <= l else true.

Lemma load_alloc st a : load (alloc st a).2 (size st) = a.
Proof. by rewrite /load /= nth_rcons ltnn eqxx. Qed.

Lemma convert_loop_spec (k : nat) (st0 st : store) (input_images : seq loc)
    YCbCr_images normalized_images st1 :
  frame k st0 st -> all (fun l => l < k) input_images ->
  convert_loop st input_images
    = Ok (YCbCr_images, normalized_images, st1) ->
  [/\ frame k st0 st1, frame (size st) st st1,
      all (above k) YCbCr_images
    & [seq read st1 r | r <- normalized_images]
      = [seq normalized_of (load st0 l) | l <- input_images]].
Proof.
elim: input_images st YCbCr_images normalized_images st1
    => [|img rest IH] st ys ns st1 fr /=.
  by move=> _ [<- <- <-]; split.
case/andP=> lt_img valid; rewrite (frame_load fr lt_img).
have le_k : k <= size st by case: fr.
rewrite /normalized_of.
case gray_eq: (_is_gray (load st0 img)) => [[]|e] //=.
  set a := amap _ _.
  have fr1 : frame k st0 (rcons st a).
    exact: frame_trans fr (frame_alloc a le_k).
  case rec_eq: (convert_loop (rcons st a) rest) => [[[ys' ns'] st']|e] //=.
  case=> <- <- <-.
  have [fr0' fr' above' reads] := IH _ _ _ _ fr1 valid rec_eq.
  split=> //=.
  - apply: frame_trans (frame_alloc a (leqnn _)) _.
    by apply: frame_le fr'; rewrite size_rcons.
  - congr (_ :: _) => //; congr Ok.
    rewrite (frame_load fr') ?size_rcons //.
    exact: (load_alloc st a).
case y_eq: (_RGB_to_YCbCr (load st0 img)) => [ycbcr|e] //=.
have fr1 : frame k st0 (rcons st ycbcr).
  exact: frame_trans fr (frame_alloc ycbcr le_k).
case rec_eq: (convert_loop (rcons st ycbcr) rest) => [[[ys' ns'] st']|e] //=.
case=> <- <- <-.
have [fr0' fr' above' reads] := IH _ _ _ _ fr1 valid rec_eq.
split=> //=.
- apply: frame_trans (frame_alloc ycbcr (leqnn _)) _.
  by apply: frame_le fr'; rewrite size_rcons.
- by rewrite le_k.
- congr (_ :: _) => //.
  rewrite (frame_load fr') ?size_rcons //.
  by rewrite (load_alloc st ycbcr).
Qed.

End Convert.

Section Reconstruct.

Local Open Scope nat_scope.

(** Every element lies in [[0, 1]]. *)
Definition clipped (a : array) : Prop :=
  forall ix, (0 <= get a ix <= 1)%R.

Lemma clip_clipped (a : array) : clipped (clip a 0 1).
Proof.
move=> ix; rewrite /clip /= le_min le_max lexx orbT ler01 /=.
by rewrite ge_min lexx orbT.
Qed.

Lemma reconstruct_loop_spec (k : nat) (st0 st : store)
    (input_images : seq loc) (YCbCr_images : seq (option loc))
    (fused_img fused_img' : array) (st' : store) :
  frame k st0 st -> all (fun l => l < k) input_images ->
  all (above k) YCbCr_images ->
  reconstruct_loop st input_images YCbCr_images fused_img
    = Ok (fused_img', st') ->
  [/\ frame k st0 st',
      fused_img' = fused_img \/ clipped fused_img',
      (forall l, l \in input_images -> _is_gray (load st0 l) = Ok true) ->
        fused_img' = fused_img
    & (exists2 l, l \in input_images & _is_gray (load st0 l) = Ok false) ->
        clipped fused_img'].
Proof.
elim: input_images st YCbCr_images fused_img
    => [|img rest IH] st ys f fr /=.
  by move=> _ _ [<- <-]; split=> //; [left | case].
case/andP=> lt_img valid above_ys; rewrite (frame_load fr lt_img).
have above_tl : all (above k) (behead ys) by case: (ys) above_ys => //= ? ? /andP[].
case gray_eq: (_is_gray (load st0 img)) => [[]|e] //=.
  move/(IH _ _ _ fr valid above_tl) => [fr' disj all_gray has_color].
  split=> //.
  - by move=> gray; apply: all_gray => l in_rest; apply: gray; rewrite inE in_rest orbT.
  - case=> l; rewrite inE => /orP[/eqP ->|in_rest] not_gray.
      by rewrite gray_eq in not_gray.
    by apply: has_color; exists l.
case ys_eq: ys above_ys => [|[l|] ys'] //= /andP[le_l _].
case: (assign_axis2_0 _ _) => [assigned|e] //=.
set st2 := update st l assigned.
case: (_YCbCr_to_RGB _) => [rgb|e] //=.
have fr2 : frame k st0 st2.
  by apply: (frame_trans fr); apply: frame_update => //; case: fr.
rewrite ys_eq /= in above_tl.
move/(IH _ _ _ fr2 valid above_tl) => [fr' disj all_gray has_color].
have clipped' : clipped fused_img'.
  by case: disj => [->|//]; exact: clip_clipped.
split=> //; first by right.
by move=> gray; move: (gray img); rewrite inE eqxx gray_eq => /(_ isT).
Qed.

End Reconstruct.

Section FuseSteps.

Local Open Scope nat_scope.

Variable features : seq VGG19.layer.

(** The five steps of a call of [fuse] that returns. *)
Lemma fuse_floatP (st : store) (input_images : seq loc) (fused : array)
    (st' : store) :
  fuse_float features st input_images = Ok (fused, st') ->
  exists YCbCr_images normalized_images st1 tensors output fused_img,
    [/\ convert_loop st input_images
          = Ok (YCbCr_images, normalized_images, st1),
        _tranfer_to_tensor st1 normalized_images = Ok tensors,
        _fuse features tensors = Ok output,
        slice_axis2 output 0 = Ok fused_img
      & reconstruct_loop st1 input_images YCbCr_images fused_img
          = Ok (fused, st')].
Proof.
rewrite /fuse_float.
case c_eq: (convert_loop st input_images) => [[[ys ns] st1]|e] //=.
case t_eq: (_tranfer_to_tensor st1 ns) => [tensors|e] //=.
case f_eq: (_fuse features tensors) => [output|e] //=.
case s_eq: (slice_axis2 output 0) => [fused_img|e] //= r_eq.
by exists ys, ns, st1, tensors, output, fused_img.
Qed.

Lemma fuseP (st : store) (input_images : seq loc) (out : ndarray Z)
    (st' : store) :
  fuse features st input_images = Ok (out, st') ->
  exists2 fused, fuse_float features st input_images = Ok (fused, st')
               & out = astype_uint8 (amap (fun x => x * 255%:R)%R fused).
Proof.
rewrite /fuse; case: (fuse_float _ _ _) => [[fused st'']|e] //= [<- <-].
by exists fused.
Qed.

Lemma fuse_float_frame (st : store) (input_images : seq loc) (fused : array)
    (st' : store) :
  all (fun l => l < size st) input_images ->
  fuse_float features st input_images = Ok (fused, st') ->
  frame (size st) st st'.
Proof.
move=> valid /fuse_floatP[ys [ns [st1 [tensors [output [fused_img]]]]]].
case=> c_eq _ _ _ r_eq.
have [fr1 _ above_ys _] :=
  convert_loop_spec (frame_refl (leqnn (size st))) valid c_eq.
by have [] := reconstruct_loop_spec fr1 valid above_ys r_eq.
Qed.

End FuseSteps.

(** C10. [fuse] leaves the caller's arrays as they were: after it
    returns, every array object that existed before the call, and so every
    input image, holds the value it held.  The in-place assignment of the
    luminance plane reaches only arrays that [fuse] allocated. *)
Theorem fuse_preserves_inputs (features : seq VGG19.layer) (st : store)
    (input_images : seq loc) (out : ndarray Z) (st' : store) :
  all (fun l => l < size st)%N input_images ->
  fuse features st input_images = Ok (out, st') ->
  (forall l, (l < size st)%N -> load st' l = load st l) /\
  (forall img, img \in input_images -> load st' img = load st img).
Proof.
move=> valid /fuseP[fused /(fuse_float_frame valid) fr _].
split=> [l lt_l|img in_imgs]; apply: (frame_load fr) => //.
exact: (allP valid).
Qed.

(** A store holding one flat 2 x 2 grayscale image, fused alone. *)
Definition flat_store : store := [:: full [:: 2; 2]%N 100%:R].

Definition flat_result : ndarray Z * store :=
  if fuse four_layers flat_store [:: 0%N] is Ok r then r
  else (astype_uint8 (zeros [::]), [::]).

Lemma fuse_preserves_inputs_witness :
  all (fun l => l < size flat_store)%N [:: 0%N] /\
  fuse four_layers flat_store [:: 0%N] = Ok (flat_result.1, flat_result.2) /\
  (forall l, (l < size flat_store)%N ->
     load flat_result.2 l = load flat_store l) /\
  (forall img, img \in [:: 0%N] -> load flat_result.2 img = load flat_store img).
Proof.
split; first by [].
split; first by [].
exact: (@fuse_preserves_inputs four_layers flat_store [:: 0%N]
          flat_result.1 flat_result.2 isT erefl).
Defined.

(** ** The fused value is a convex combination *)

Section Broadcast4.

Local Open Scope nat_scope.

(** Broadcasting of one axis. *)
Definition bdim (n1 n2 : nat) : option nat :=
  if (n1 == n2) || (n2 == 1) then Some n1
  else if n1 == 1 then Some n2 else None.

Lemma bshape_rev_cons n1 r1 n2 r2 :
  bshape_rev (n1 :: r1) (n2 :: r2) =
  if bdim n1 n2 is Some n then omap (cons n) (bshape_rev r1 r2) else None.
Proof. by rewrite /bdim /=; do 2 case: ifP => //. Qed.

Lemma broadcast_shape_4_3P bi ci hi wi B h w sT :
  broadcast_shape [:: bi; ci; hi; wi] [:: B; h; w] = Some sT ->
  exists cT hT wT,
    [/\ sT = [:: bi; cT; hT; wT], bdim ci B = Some cT, bdim hi h = Some hT
      & bdim wi w = Some wT].
Proof.
rewrite /broadcast_shape [rev _]/= [rev [:: B; _; _]]/= !bshape_rev_cons.
case: (bdim wi w) => [wT|] //; case: (bdim hi h) => [hT|] //.
by case: (bdim ci B) => [cT|] //= [<-]; exists cT, hT, wT.
Qed.

Lemma broadcast_shape_4_4P b c h w bT cT hT wT :
  broadcast_shape [:: b; c; h; w] [:: bT; cT; hT; wT] = Some [:: b; c; h; w] ->
  [/\ bdim b bT = Some b, bdim c cT = Some c, bdim h hT = Some h
    & bdim w wT = Some w].
Proof.
rewrite /broadcast_shape [rev _]/= [rev [:: bT; _; _; _]]/= !bshape_rev_cons.
case: (bdim w wT) => [w'|] //; case: (bdim h hT) => [h'|] //.
case: (bdim c cT) => [c'|] //; case: (bdim b bT) => [b'|] //=.
by case=> -> -> -> ->.
Qed.

Lemma bdimP n1 n2 nT :
  bdim n1 n2 = Some nT ->
  [\/ n1 = n2 /\ nT = n1, n2 = 1 /\ nT = n1 | n1 = 1 /\ nT = n2].
Proof.
rewrite /bdim; case: (n1 =P n2) => [e [<-]|_] /=; first by constructor 1.
case: (n2 =P 1) => [e [<-]|_] /=; first by constructor 2.
by case: (n1 =P 1) => [e [<-]|//]; constructor 3.
Qed.

Lemma bdim_selfP na nT : bdim na nT = Some na -> nT = na \/ nT = 1.
Proof. by case/bdimP => [[-> _]|[-> _]|[-> <-]]; [left | right | left]. Qed.

Lemma lt1_eq0 x : x < 1 -> x = 0.
Proof. by case: x. Qed.

Lemma bdim_index n1 n2 nT na x :
  bdim n1 n2 = Some nT -> bdim na nT = Some na -> x < na ->
  let x' := if nT == 1 then 0 else x in
  [/\ (if n1 == 1 then 0 else x') < n1, (if n2 == 1 then 0 else x') < n2
    & (if n2 == 1 then 0 else x') = (if n2 == 1 then 0 else x)].
Proof.
move=> /bdimP dims /bdim_selfP self lt_x /=.
case: self dims lt_x => [eT|eT] [] [e1 e2]; subst.
all: try (rewrite !eqxx /=).
all: try (by []).
- by case: (n2 =P 1) => [->|_].
- by case: (n1 =P 1) => [->|_].
- by case: (n2 =P 1) => [->|_].
Qed.

End Broadcast4.

Section StepRange.

Local Open Scope nat_scope.

Variables (weights : array) (B N b c h w : nat).
Hypothesis weights_shape : shape weights = [:: B; N; h; w].
Hypothesis weights_gt0 :
  forall ix, in_bounds [:: B; N; h; w] ix -> (0 < get weights ix)%R.

(** Values of [[0, 1]] at every index of the shape. *)
Definition unit_range (a : array) : Prop :=
  forall ix, in_bounds (shape a) ix -> (0 <= get a ix <= 1)%R.

Lemma accumulate_step_range (idx : nat) (acc t acc' : array) :
  shape acc = [:: b; c; h; w] -> ndim t = 4 -> unit_range t ->
  (let* wk := slice_axis1 weights idx in
   let* term := torch_op2 *%R t wk in
   torch_iadd acc term) = Ok acc' ->
  [/\ idx < N, shape acc' = [:: b; c; h; w]
    & forall b0 k i j, in_bounds [:: b; c; h; w] [:: b0; k; i; j] ->
        let bw := if B == 1 then 0 else k in
        bw < B /\
        (get acc [:: b0; k; i; j] <= get acc' [:: b0; k; i; j]
           <= get acc [:: b0; k; i; j] + get weights [:: bw; idx; i; j])%R].
Proof.
move=> acc_shape t_dim t_range.
rewrite /slice_axis1 weights_shape; case: ifP => // lt_idx /=.
move: t_dim t_range; rewrite /ndim /unit_range.
case t_shape: (shape t) => [|bi [|ci [|hi [|wi [|? ?]]]]] // _ t_range.
rewrite /torch_op2 /broadcast2 /= t_shape.
case bs_eq: (broadcast_shape _ _) => [sT|] //=.
have [cT [hT [wT [sT_eq dc dh dw]]]] := broadcast_shape_4_3P bs_eq.
rewrite /torch_iadd acc_shape /= sT_eq.
case: eqP => // /broadcast_shape_4_4P[db dc' dh' dw'] [<-] /=.
split=> // b0 k i j /and5P[lt_b lt_k lt_h lt_w _].
have db1 : bdim bi 1 = Some bi by rewrite /bdim eqxx orbT.
have [tb _ _] := bdim_index db1 db lt_b.
have [tc wc ec] := bdim_index dc dc' lt_k.
have [th wh eh] := bdim_index dh dh' lt_h.
have [tw ww ew] := bdim_index dw dw' lt_w.
rewrite /bindex /= ec eh ew (stretch_index lt_h) (stretch_index lt_w).
rewrite -ec; split=> //.
set tv := get t _; set wv := get weights _.
have /andP[t_ge0 t_le1] : (0 <= tv <= 1)%R.
  by apply: t_range; rewrite /= tb tc th tw.
have w_gt0 : (0 < wv)%R.
  by apply: weights_gt0; rewrite /= wc lt_idx lt_h lt_w.
rewrite lerDl lerD2l mulr_ge0 ?(ltW w_gt0) //=.
by rewrite ger_pMl.
Qed.

(** The weight of image [l] at the pixel of index [(b0, k, i, j)]. *)
Definition weight_at (k i j l : nat) : R :=
  get weights [:: if B == 1 then 0 else k; l; i; j].

Lemma accumulate_range (ts : seq array) (idx : nat) (acc fused : array) :
  idx <= N -> shape acc = [:: b; c; h; w] ->
  List.Forall (fun t => ndim t = 4 /\ unit_range t) ts ->
  (forall b0 k i j, in_bounds [:: b; c; h; w] [:: b0; k; i; j] ->
     (0 < idx -> (if B == 1 then 0 else k) < B) /\
     (0 <= get acc [:: b0; k; i; j] <= \sum_(l < idx) weight_at k i j l)%R) ->
  accumulate weights idx ts acc = Ok fused ->
  [/\ idx + size ts <= N, shape fused = [:: b; c; h; w]
    & forall b0 k i j, in_bounds [:: b; c; h; w] [:: b0; k; i; j] ->
        (0 < idx + size ts -> (if B == 1 then 0 else k) < B) /\
        (0 <= get fused [:: b0; k; i; j]
           <= \sum_(l < idx + size ts) weight_at k i j l)%R].
Proof.
elim: ts idx acc => [|t ts IH] idx acc le_idx acc_shape.
  by move=> _ inv [<-]; rewrite addn0; split.
move=> ts_ok inv; rewrite accumulate_cons.
case step: (let* wk := slice_axis1 weights idx in
            let* term := torch_op2 *%R t wk in
            torch_iadd acc term) => [acc'|e] //=.
have [t_dim t_range] : ndim t = 4 /\ unit_range t.
  by move: ts_ok => /List.Forall_cons_iff[].
have ts'_ok : List.Forall (fun t => ndim t = 4 /\ unit_range t) ts.
  by move: ts_ok => /List.Forall_cons_iff[].
have [lt_idx acc'_shape acc'_range] :=
  accumulate_step_range acc_shape t_dim t_range step.
rewrite addnS -addSn; apply: IH => // b0 k i j ok.
have [bw_lt /andP[ge_acc le_acc]] := acc'_range _ _ _ _ ok.
have [_ /andP[acc_ge0 acc_le]] := inv _ _ _ _ ok.
split=> // ; rewrite (le_trans acc_ge0 ge_acc) /=.
by rewrite big_ord_recr /= (le_trans le_acc) // lerD2r.
Qed.
End StepRange.


Lemma sum_widen (m n : nat) (F : nat -> R) :
  (m <= n)%N -> (forall l, (l < n)%N -> 0 <= F l) ->
  \sum_(l < m) F l <= \sum_(l < n) F l.
Proof.
move=> le_mn F_ge0; rewrite (big_ord_widen n F le_mn) big_mkcond /=.
by apply: ler_sum => l _; case: ifP => // _; exact: F_ge0.
Qed.

Lemma current_fusion_range (tensors sum_maps : seq array) (fused : array) :
  List.Forall (fun t => ndim t = 4 /\ unit_range t) tensors ->
  current_fusion_of tensors sum_maps = Ok fused ->
  [/\ (0 < size tensors)%N, shape fused = shape (head (zeros [::]) tensors)
    & unit_range fused].
Proof.
move=> tensors_ok; rewrite /current_fusion_of.
case w_eq: (weights_of _ _) => [weights|e] //; rewrite /Py.bind.
have [B [N [h [w [w_shape size_eq w_gt0 w_sum]]]]] := weights_ofP w_eq.
case: tensors tensors_ok size_eq w_eq => [|t ts] // tensors_ok.
rewrite [head _ _]/=.
have [t_dim _] : ndim t = 4 /\ unit_range t.
  by move: tensors_ok => /List.Forall_cons_iff[].
move: t_dim; rewrite /ndim.
case t_shape: (shape t) => [|b [|c [|h' [|w' [|? ?]]]]] //= _ [eh ew] _ acc_eq.
move: eh ew w_shape w_gt0 w_sum => <- <- {h w} w_shape w_gt0 w_sum.
have [] := @accumulate_range weights B N b c h' w' w_shape w_gt0
             (t :: ts) 0 (zeros [:: b; c; h'; w']) fused _ _ tensors_ok _ acc_eq
  => //.
  by move=> b0 k i j _; rewrite big_ord0 lexx.
rewrite add0n => le_N f_shape f_range; split=> //.
move=> ix; rewrite f_shape.
case: ix => [|b0 [|k [|i [|j [|? ?]]]]] //=; rewrite ?andbF // => ok.
have ok' : in_bounds [:: b; c; h'; w'] [:: b0; k; i; j] by [].
have [/(_ isT) lt_bw /andP[-> le_sum]] := f_range _ _ _ _ ok'.
case/and5P: ok => _ _ lt_h lt_w _.
rewrite (le_trans le_sum) // -(w_sum _ i j lt_bw lt_h lt_w).
apply: sum_widen => // l lt_l; apply/ltW/w_gt0.
by rewrite /= lt_bw lt_l lt_h lt_w.
Qed.


Lemma squeeze_range (a : array) : unit_range a -> unit_range (squeeze a).
Proof. by move=> a_range ix /= /unsqueeze_in_bounds /a_range. Qed.

Lemma output_layout_range (a out : array) :
  unit_range a -> Spec.output_layout a = Ok out -> unit_range out.
Proof.
move/squeeze_range; rewrite /Spec.output_layout.
move: (squeeze a) => a' a_range; rewrite /ndim.
case: ifP => [/eqP|_ [<-] //].
case sh_a: (shape a') => [|c [|h [|w [|? ?]]]] // _.
rewrite (transpose_120 sh_a) => -[<-] [|i [|j [|k [|? ?]]]] //=;
  rewrite ?andbF // => /and4P[? ? ? _].
by apply: a_range; rewrite sh_a /=; apply/and4P.
Qed.

Lemma slice_axis2_range (a out : array) (k : nat) :
  unit_range a -> slice_axis2 a k = Ok out -> unit_range out.
Proof.
move=> a_range; rewrite /slice_axis2.
case sh_a: (shape a) => [|h [|w [|c rest]]] //; case: ifP => // lt_k [<-].
case=> [|i [|j ix]] //=; rewrite ?andbF // => /and3P[lt_i lt_j ok].
by apply: a_range; rewrite sh_a /= take0 drop0 /= lt_i lt_j lt_k.
Qed.

Definition fusion_ok (sh : seq nat) (m : option array) : Prop :=
  if m is Some a then shape a = sh /\ unit_range a else True.

Lemma depth_loop_range (tensors : seq array) (depths : seq (seq array))
    (max_fusion r : option array) :
  List.Forall (fun t => ndim t = 4%N /\ unit_range t) tensors ->
  fusion_ok (shape (head (zeros [::]) tensors)) max_fusion ->
  depth_loop tensors depths max_fusion = Ok r ->
  fusion_ok (shape (head (zeros [::]) tensors)) r.
Proof.
move=> tensors_ok; elim: depths max_fusion => [|sum_maps depths IH] m m_ok /=.
  by case=> <-.
case c_eq: (current_fusion_of tensors sum_maps) => [cur|e] //=.
have [_ cur_shape cur_range] := current_fusion_range tensors_ok c_eq.
case: m m_ok => [m [m_shape m_range]|_] /=; last by apply: IH.
rewrite /torch_op2 /broadcast2 m_shape cur_shape broadcast_shape_same /=.
apply: IH; split=> // ix; rewrite [shape _]/= [get _ _]/= => ok.
rewrite !bindex_in_bounds //.
have /andP[m0 m1] : 0 <= get m ix <= 1 by apply: m_range; rewrite m_shape.
have /andP[c0 c1] : 0 <= get cur ix <= 1 by apply: cur_range; rewrite cur_shape.
by rewrite le_max m0 ge_max m1 c1.
Qed.

Lemma _fuse_range (features : seq VGG19.layer) (tensors : seq array)
    (output : array) :
  List.Forall (fun t => ndim t = 4%N /\ unit_range t) tensors ->
  _fuse features tensors = Ok output -> unit_range output.
Proof.
move=> tensors_ok; rewrite /_fuse.
case: (mapM _ tensors) => [maps|e] //=.
case d_eq: (depth_loop _ _ _) => [[m|]|e] //=.
have [_ m_range] := @depth_loop_range _ _ None _ tensors_ok I d_eq.
exact: output_layout_range.
Qed.


(** ** The range of the returned pixels *)

Lemma normalized_of_range (img v : array) :
  Spec.eight_bit img -> normalized_of img = Ok v -> unit_range v.
Proof.
move=> img_8bit; rewrite /normalized_of.
have scaled ix : in_bounds (shape img) ix -> 0 <= get img ix / 255%:R <= 1.
  move=> /img_8bit /andP[ge0 le255].
  by rewrite divr_ge0 ?ler0n // ler_pdivrMr ?ltr0n // mul1r.
case: (_is_gray img) => [[]|e] //=; first by case=> <- ix /= /scaled.
rewrite /_RGB_to_YCbCr /cvtColor /=.
case sh: (shape img) => [|h [|w [|c [|? ?]]]] //.
case: ifP => // /and3P[h_gt0 w_gt0 c34] /= [<-].
case=> [|i [|j [|? ?]]] //=; rewrite ?andbF // => /and3P[lt_i lt_j _].
have px k : (k < 3)%N -> 0 <= get img [:: i; j; k] / 255%:R <= 1.
  move=> lt_k; apply: scaled; rewrite sh /= lt_i lt_j andbT /=.
  by case/orP: c34 => /eqP ->; rewrite // ltnW.
have /andP[r0 r1] := px 0%N isT.
have /andP[g0 g1] := px 1%N isT.
have /andP[b0 b1] := px 2%N isT.
by apply/andP; split; lra.
Qed.


Lemma to_tensor_range (v t : array) :
  unit_range v -> to_tensor v = Ok t -> ndim t = 4%N /\ unit_range t.
Proof.
move=> v_range; rewrite /to_tensor /ndim /repeat3_new_axes /new_axis0.
case: eqP => [dim2 [<-]|_].
  split; first by rewrite /= dim2.
  case=> [|b [|c ix]] //=; rewrite ?andbF // drop0 => /and3P[_ _ ok].
  exact: v_range.
rewrite /transpose /ndim.
case: ifP => // /perm_size; rewrite size_iota /=.
case sh: (shape v) => [|h [|w [|c [|? ?]]]] //= _ [<-] /=; split=> //.
case=> [|b [|k [|i [|j [|? ?]]]]] //=; rewrite ?andbF //.
move=> /and5P[_ lt_k lt_i lt_j _].
by apply: v_range; rewrite sh /= lt_i lt_j lt_k.
Qed.

Lemma tensors_range (st0 st1 : store) (input_images : seq loc)
    (normalized_images : seq aref) (tensors : seq array) :
  [seq read st1 r | r <- normalized_images]
    = [seq normalized_of (load st0 l) | l <- input_images] ->
  (forall l, l \in input_images -> Spec.eight_bit (load st0 l)) ->
  _tranfer_to_tensor st1 normalized_images = Ok tensors ->
  List.Forall (fun t => ndim t = 4%N /\ unit_range t) tensors.
Proof.
rewrite /_tranfer_to_tensor.
elim: normalized_images input_images tensors => [|r ns IH] [|l imgs] ts //=.
  by move=> _ _ [<-].
case=> read_eq reads imgs_8bit; rewrite read_eq.
case n_eq: (normalized_of (load st0 l)) => [v|e] //=.
case t_eq: (to_tensor v) => [t|e] //=.
case rec_eq: (mapM _ ns) => [ts'|e] //= [<-].
apply: List.Forall_cons.
  apply: to_tensor_range t_eq; apply: normalized_of_range n_eq.
  by apply: imgs_8bit; rewrite inE eqxx.
apply: IH reads _ rec_eq => l' in_imgs.
by apply: imgs_8bit; rewrite inE in_imgs orbT.
Qed.

Lemma fuse_float_range (features : seq VGG19.layer) (st : store)
    (input_images : seq loc) (fused : array) (st' : store) :
  all (fun l => l < size st)%N input_images ->
  fuse_float features st input_images = Ok (fused, st') ->
  ((exists2 l, l \in input_images & _is_gray (load st l) = Ok false) ->
     clipped fused) /\
  ((forall l, l \in input_images -> Spec.eight_bit (load st l)) ->
     unit_range fused).
Proof.
move=> valid /fuse_floatP[ys [ns [st1 [tensors [output [fused_img]]]]]].
case=> c_eq t_eq f_eq s_eq r_eq.
have [fr1 _ above_ys reads] :=
  convert_loop_spec (frame_refl (leqnn (size st))) valid c_eq.
have [_ disj _ has_color] := reconstruct_loop_spec fr1 valid above_ys r_eq.
split=> // imgs_8bit.
case: disj => [->|fused_clipped]; last by move=> ix _; exact: fused_clipped.
apply: slice_axis2_range s_eq; apply: _fuse_range f_eq.
exact: tensors_range reads imgs_8bit t_eq.
Qed.

(** Scaling a value of [[0, 1]] to 8 bits drops the fraction and never
    wraps. *)
Lemma natr_IZR (n : nat) : n%:R = IZR (Z.of_nat n) :> R.
Proof.
elim: n => [|n IH] //; rewrite -addn1 natrD IH Nat2Z.inj_add plus_IZR.
by [].
Qed.

Lemma to_uint8_scaled (v : R) :
  0 <= v <= 1 ->
  to_uint8 (v * 255%:R)%R = Zfloor (v * 255%:R)%R /\
  (0 <= to_uint8 (v * 255%:R)%R <= 255)%ZZ.
Proof.
move=> /andP[v_ge0 v_le1]; rewrite /to_uint8.
have x_ge0 : 0 <= v * 255%:R by rewrite mulr_ge0 // ler0n.
have x_le : v * 255%:R <= 255%:R by rewrite ger_pMl // ltr0n.
rewrite x_ge0.
have lo : (0 <= Zfloor (v * 255%:R)%R)%ZZ.
  by apply: Zfloor_lub; apply/RleP.
have hi : (Zfloor (v * 255%:R)%R <= 255)%ZZ.
  apply: le_IZR; apply: Rle_trans (proj1 (Zfloor_bound _)) _.
  by apply/RleP; rewrite (le_trans x_le) // (natr_IZR 255).
by rewrite Z.mod_small; lia.
Qed.

Definition wide_store : store := [:: full [:: 2; 2]%N 510%:R].

Lemma fuse_float_wide (fused : array) (st' : store) :
  fuse_float four_layers wide_store [:: 0%N] = Ok (fused, st') ->
  shape fused = [:: 2; 2]%N /\ get fused [:: 0; 0]%N = 2%:R.
Proof.
move=> /fuse_floatP[ys [ns [st1 [tensors [output [fused_img]]]]]].
rewrite [convert_loop _ _]/=; case=> -[<- <- <-].
rewrite /_tranfer_to_tensor [mapM _ _]/= => -[<-].
set t := repeat3_new_axes _ => f_eq.
have [m [weights [_ _ _ [out' layout [sh_eq get_eq]]]]] :=
  @_fuse_identical four_layers 0 t output isT f_eq.
move: layout sh_eq get_eq; rewrite /Spec.output_layout [squeeze _]/=.
rewrite [ndim _ == _]/= (@transpose_120 _ _ 3 2 2) // => -[<-] /= sh_eq get_eq.
rewrite /slice_axis2 sh_eq /= => -[<-] [<- _] /=.
split=> //; rewrite get_eq ?sh_eq //=.
by rewrite -[510%N]/(2 * 255)%N natrM mulfK // pnatr_eq0.
Qed.

Definition wide_result : ndarray Z * store :=
  if fuse four_layers wide_store [:: 0%N] is Ok r then r
  else (astype_uint8 (zeros [::]), [::]).

Lemma to_uint8_510 : to_uint8 (2%:R * 255%:R)%R = 254%ZZ.
Proof.
have -> : 2%:R * 255%:R = IZR 510 :> R by rewrite -natrM natr_IZR.
have ge0 : (0 <= IZR 510 :> R) by apply/RleP; apply: IZR_le.
rewrite /to_uint8 ge0 ZfloorZ.
by [].
Qed.

(** C4 as stated fails on a call of gray images only: a flat image of
    pixel value 510 alone is fused to the value 2, which is scaled
    unclipped and wraps to 254. *)
Lemma fuse_all_gray_unclipped :
  ~ Spec.clipped_before_scaling four_layers wide_store [:: 0%N] /\
  fuse four_layers wide_store [:: 0%N] = Ok wide_result /\
  get wide_result.1 [:: 0; 0]%N = 254%ZZ.
Proof.
have f_eq : fuse four_layers wide_store [:: 0%N] = Ok wide_result by [].
have [fused ff_eq out_eq] : exists2 fused,
    fuse_float four_layers wide_store [:: 0%N] = Ok (fused, wide_result.2)
    & wide_result.1 = astype_uint8 (amap (fun x => x * 255%:R) fused).
  by apply: fuseP; rewrite f_eq; case: wide_result.
have [fused_shape fused00] := fuse_float_wide ff_eq.
split; last first.
  by split=> //; rewrite out_eq /= fused00 to_uint8_510.
move=> /(_ _ _ ff_eq [:: 0; 0]%N); rewrite fused_shape fused00 => /(_ isT).
case/andP=> _; rewrite -[1]/(1%:R) ler_nat.
by [].
Qed.

(** C4, amended.  The result is clipped to [[0, 1]] before the final
    scaling when some input image is not gray: the clip sits in the
    reconstruction of colour images.  A call of gray images only is not
    clipped.  Whenever the call has a colour image or its images are
    8-bit, the value scaled is in [[0, 1]]: every returned pixel is then
    the floor of 255 times that value and lies in [[0, 255]], with no
    wraparound. *)
Theorem fuse_output_in_range (features : seq VGG19.layer) (st : store)
    (input_images : seq loc) (out : ndarray Z) (st' : store) :
  all (fun l => l < size st)%N input_images ->
  fuse features st input_images = Ok (out, st') ->
  exists2 fused, fuse_float features st input_images = Ok (fused, st')
  & [/\ out = astype_uint8 (amap (fun x => x * 255%:R) fused),
        (exists2 l, l \in input_images & _is_gray (load st l) = Ok false) ->
          clipped fused
      & (exists2 l, l \in input_images & _is_gray (load st l) = Ok false) \/
        (forall l, l \in input_images -> Spec.eight_bit (load st l)) ->
        forall ix, in_bounds (shape out) ix ->
          [/\ 0 <= get fused ix <= 1,
              get out ix = Zfloor (get fused ix * 255%:R)%R
            & (0 <= get out ix <= 255)%ZZ]].
Proof.
move=> valid /fuseP[fused ff_eq out_eq]; exists fused => //.
have [color_clipped gray_range] := fuse_float_range valid ff_eq.
split=> // in_range ix; rewrite out_eq /= => ok.
have v_range : 0 <= get fused ix <= 1.
  case: in_range => [/color_clipped|/gray_range]; first exact.
  exact.
by have [-> bounds] := to_uint8_scaled v_range.
Qed.

Lemma fuse_output_in_range_witness :
  all (fun l => l < size flat_store)%N [:: 0%N] /\
  fuse four_layers flat_store [:: 0%N] = Ok (flat_result.1, flat_result.2) /\
  exists2 fused,
    fuse_float four_layers flat_store [:: 0%N] = Ok (fused, flat_result.2)
  & [/\ flat_result.1 = astype_uint8 (amap (fun x => x * 255%:R) fused),
        (exists2 l, l \in [:: 0%N]
                  & _is_gray (load flat_store l) = Ok false) ->
          clipped fused
      & (exists2 l, l \in [:: 0%N] & _is_gray (load flat_store l) = Ok false)
        \/ (forall l, l \in [:: 0%N] -> Spec.eight_bit (load flat_store l)) ->
        forall ix, in_bounds (shape flat_result.1) ix ->
          [/\ 0 <= get fused ix <= 1,
              get flat_result.1 ix = Zfloor (get fused ix * 255%:R)%R
            & (0 <= get flat_result.1 ix <= 255)%ZZ]].
Proof.
split; first by [].
split; first by [].
exact: (@fuse_output_in_range four_layers flat_store [:: 0%N]
          flat_result.1 flat_result.2 isT erefl).
Defined.

(** * Further properties of the code *)

(** ** The weight map *)

(** Every weight of a tap depth lies in the interval (0, 1]. *)
Theorem weights_in_unit_interval (size : seq nat) (sum_maps : seq array)
    (weights : array) :
  weights_of size sum_maps = Ok weights ->
  forall ix, in_bounds (shape weights) ix -> 0 < get weights ix <= 1.
Proof.
move=> /weights_ofP[B [N [h [w [-> _ w_gt0 w_sum]]]]] ix ok.
rewrite (w_gt0 _ ok) /=.
case: ix ok => [|b0 [|k [|i [|j [|? ?]]]]] //=; rewrite ?andbF // => ok.
case/and5P: (ok) => lt_b lt_k lt_h lt_w _.
rewrite -(w_sum b0 i j lt_b lt_h lt_w) (bigD1 (Ordinal lt_k)) //= lerDl.
apply: sumr_ge0 => l _; apply/ltW/w_gt0.
by rewrite /= lt_b ltn_ord lt_h lt_w.
Qed.

Lemma weights_in_unit_interval_witness :
  weights_of [:: 2; 2]%N two_flat_maps = Ok two_flat_weights /\
  forall ix, in_bounds (shape two_flat_weights) ix ->
    0 < get two_flat_weights ix <= 1.
Proof.
split; first by [].
exact: (@weights_in_unit_interval [:: 2; 2]%N two_flat_maps two_flat_weights
          erefl).
Defined.

(** ** The grayscale test *)

(** [_is_gray] returns unless the array has a third axis of length 0 or
    2, and what it raises then is [IndexError]. *)
Theorem _is_gray_outcome (img : array) :
  returns (_is_gray img)
    = [|| (ndim img < 3)%N, Spec.channels img == 1%N
        | (2 < Spec.channels img)%N] /\
  forall e, _is_gray img = Raise e -> e = IndexError.
Proof.
rewrite /_is_gray /Spec.channels /ndim.
case: ltnP => [//|ge3]; case: eqP => [//|ne1] /=.
case sh: (shape img) ge3 ne1 => [|h [|w [|c rest]]] //= _ ne1.
rewrite /slice_axis2 sh.
case: c sh ne1 => [|[|[|c]]] //= sh _.
- by split=> // e [].
- by split=> // e [].
rewrite /np_op2 /broadcast2 /= broadcast_shape_same /=.
by case: ifP.
Qed.

(** ** The feature extractor *)

(** Running layers in sequence. *)
Fixpoint run_layers (layers : seq VGG19.layer) (x : array) : result array :=
  if layers is l :: layers' then let* y := l x in run_layers layers' y
  else Ok x.

Lemma forward_from_late (idx : nat) (layers : seq VGG19.layer) (x : array)
    (acc : seq array) :
  (3 < idx)%N ->
  VGG19.forward_from idx layers x acc
  = (let* _ := run_layers layers x in Ok acc).
Proof.
elim: layers idx x => [|l layers IH] idx x lt_idx //=.
case: (l x) => [y|e] //=.
by rewrite gtn_eqF // IH // ltnW.
Qed.

(** [forward] runs every layer of the network.  It returns the output of
    the fourth layer alone, and only if the layers after it succeed too;
    a network of fewer than four layers yields no feature map. *)
Theorem forward_runs_all_layers (features : seq VGG19.layer) (x : array) :
  VGG19.forward features x
  = (let* y := run_layers (take 4 features) x in
     let* _ := run_layers (drop 4 features) y in
     Ok (if (3 < size features)%N then [:: y] else [::])).
Proof.
rewrite /VGG19.forward.
case: features => [|l0 [|l1 [|l2 [|l3 rest]]]] //=.
- by case: (l0 x).
- by case: (l0 x) => [x1|e] //=; case: (l1 x1).
- case: (l0 x) => [x1|e] //=; case: (l1 x1) => [x2|e] //=.
  by case: (l2 x2).
- case: (l0 x) => [x1|e] //=; case: (l1 x1) => [x2|e] //=.
  case: (l2 x2) => [x3|e] //=; case: (l3 x3) => [x4|e] //=.
  by rewrite forward_from_late // take0 drop0.
Qed.

(** ** Tensors of images *)

(** [to_tensor] puts the channels first behind a batch axis of length 1:
    a two-dimensional image becomes three equal channels, a
    three-dimensional one keeps its pixels, and an array of any other
    rank raises [ValueError]. *)
Theorem to_tensor_layout (v : array) :
  match shape v with
  | [:: h; w] =>
      exists2 t, to_tensor v = Ok t
      & shape t = [:: 1; 3; h; w]%N /\
        forall b k i j, get t [:: b; k; i; j] = get v [:: i; j]
  | [:: h; w; c] =>
      exists2 t, to_tensor v = Ok t
      & shape t = [:: 1; c; h; w]%N /\
        forall b k i j, get t [:: b; k; i; j] = get v [:: i; j; k]
  | _ => to_tensor v = Raise ValueError
  end.
Proof.
rewrite /to_tensor /transpose /ndim.
case sh: (shape v) => [|h [|w [|c [|d rest]]]] //=.
- by eexists; first by []; rewrite /= ?sh.
- by eexists; first by []; rewrite /= ?sh.
- by case: ifP => // /perm_size.
Qed.

(** ** Colour conversion *)

(** Converting an 8-bit colour image to YCrCb and back gives each
    channel of each pixel back within 1/1000 of its normalised value. *)
Theorem ycbcr_round_trip (img : array) (h w : nat) :
  shape img = [:: h; w; 3]%N -> (0 < h)%N -> (0 < w)%N ->
  Spec.eight_bit img ->
  exists ycbcr rgb,
    [/\ _RGB_to_YCbCr img = Ok ycbcr, _YCbCr_to_RGB ycbcr = Ok rgb,
        shape rgb = shape img
      & forall ix, in_bounds (shape img) ix ->
          `|get rgb ix - get img ix / 255%:R| <= 1 / 1000%:R].
Proof.
move=> sh h_gt0 w_gt0 img_8bit.
rewrite /_RGB_to_YCbCr /cvtColor /= sh h_gt0 w_gt0 /=.
eexists; eexists; split; first by [].
- by rewrite /_YCbCr_to_RGB /cvtColor /= h_gt0 w_gt0.
- by [].
case=> [|i [|j [|k [|? ?]]]] //=; rewrite ?andbF // => /and4P[lt_i lt_j lt_k _].
have px c : (c < 3)%N -> 0 <= get img [:: i; j; c] / 255%:R <= 1.
  move=> lt_c.
  have /andP[ge0 le255] : 0 <= get img [:: i; j; c] <= 255%:R.
    by apply: img_8bit; rewrite sh /= lt_i lt_j lt_c.
  by rewrite divr_ge0 ?ler0n // ler_pdivrMr ?ltr0n // mul1r.
have /andP[r0 r1] := px 0%N isT.
have /andP[g0 g1] := px 1%N isT.
have /andP[b0 b1] := px 2%N isT.
move: r0 r1 g0 g1 b0 b1.
set r := get img [:: i; j; 0%N] / _.
set g := get img [:: i; j; 1%N] / _.
set b := get img [:: i; j; 2%N] / _.
move=> r0 r1 g0 g1 b0 b1.
case: k lt_k => [|[|[|k]]] //= _; rewrite -/r -/g -/b ler_norml;
  by apply/andP; split; lra.
Qed.
(** A 2 x 2 colour image whose channels hold 0, 100 and 200. *)
Definition ramp_rgb : array :=
  NdArray [:: 2; 2; 3]%N (fun ix => (nth 0%N ix 2 * 100)%:R).

Lemma ramp_rgb_eight_bit : Spec.eight_bit ramp_rgb.
Proof.
case=> [|i [|j [|k [|? ?]]]] //=; rewrite ?andbF // => /and4P[_ _ lt_k _].
by rewrite ler0n ler_nat; case: k lt_k => [|[|[|k]]].
Qed.

Lemma ycbcr_round_trip_witness :
  exists ycbcr rgb,
    [/\ _RGB_to_YCbCr ramp_rgb = Ok ycbcr, _YCbCr_to_RGB ycbcr = Ok rgb,
        shape rgb = shape ramp_rgb
      & forall ix, in_bounds (shape ramp_rgb) ix ->
          `|get rgb ix - get ramp_rgb ix / 255%:R| <= 1 / 1000%:R].
Proof.
exact: (@ycbcr_round_trip ramp_rgb 2 2 erefl isT isT ramp_rgb_eight_bit).
Defined.

(** ** The shape of the fused tensor *)

Section Shapes.

Local Open Scope nat_scope.

Lemma accumulate_shape (weights : array) (idx : nat) (ts : seq array)
    (acc fused : array) :
  accumulate weights idx ts acc = Ok fused -> shape fused = shape acc.
Proof.
elim: ts idx acc => [|t ts IH] idx acc; first by case=> <-.
rewrite accumulate_cons.
case: (slice_axis1 weights idx) => [wk|e] //=.
case: (torch_op2 _ t wk) => [term|e] //=.
rewrite {1}/torch_iadd; case: ifP => // _ /=.
by move/IH.
Qed.

Lemma current_fusion_shape (tensors sum_maps : seq array) (fused : array) :
  current_fusion_of tensors sum_maps = Ok fused ->
  shape fused = shape (head (zeros [::]) tensors).
Proof.
rewrite /current_fusion_of; case: (weights_of _ _) => [weights|e] //.
by rewrite /Py.bind => /accumulate_shape.
Qed.

Lemma depth_loop_shape (tensors : seq array) (depths : seq (seq array))
    (max_fusion r : option array) :
  (if max_fusion is Some m
   then shape m = shape (head (zeros [::]) tensors) else True) ->
  depth_loop tensors depths max_fusion = Ok r ->
  if r is Some m then shape m = shape (head (zeros [::]) tensors) else True.
Proof.
elim: depths max_fusion => [|sum_maps depths IH] m m_ok /=; first by case=> <-.
case c_eq: (current_fusion_of tensors sum_maps) => [cur|e] //=.
have cur_shape := current_fusion_shape c_eq.
case: m m_ok => [m m_shape|_] /=; last exact: IH.
rewrite /torch_op2 /broadcast2 m_shape cur_shape broadcast_shape_same /=.
exact: IH.
Qed.

Variable features : seq VGG19.layer.

Lemma _fuse_layout (tensors : seq array) (output : array) :
  _fuse features tensors = Ok output ->
  exists2 m, shape m = shape (head (zeros [::]) tensors)
           & Spec.output_layout m = Ok output.
Proof.
rewrite /_fuse; case: (mapM _ tensors) => [maps|e] //=.
case d_eq: (depth_loop _ _ _) => [[m|]|e] //= layout.
by exists m => //; exact: (@depth_loop_shape _ _ None _ I d_eq).
Qed.

(** The luminance slice exists only for a tensor of at least two
    channels, rows and columns. *)
Lemma luminance_slice (tensors : seq array) (output fused_img : array)
    (c h w : nat) :
  shape (head (zeros [::]) tensors) = [:: 1; c; h; w] ->
  _fuse features tensors = Ok output ->
  slice_axis2 output 0 = Ok fused_img ->
  [/\ c != 1, h != 1, w != 1 & shape fused_img = [:: h; w]].
Proof.
move=> sh /_fuse_layout[m]; rewrite sh => m_shape.
rewrite /Spec.output_layout /transpose /ndim /= m_shape /=.
case c1: (c == 1); case h1: (h == 1); case w1: (w == 1) => /=;
  try by case=> <-; rewrite /slice_axis2 /= m_shape /= ?c1 ?h1 ?w1.
by case=> <-; rewrite /slice_axis2 /=; case: (0 < c) => // -[<-].
Qed.

End Shapes.

(** ** What a call of [fuse] that returns looks like *)

Section Returns.

Local Open Scope nat_scope.

(** [not self._is_gray(img)] holds. *)
Definition is_colour (img : array) : bool :=
  if _is_gray img is Ok false then true else false.

Lemma weights_of_size (size : seq nat) (sum_maps : seq array) (weights : array) :
  weights_of size sum_maps = Ok weights ->
  exists h w, [/\ size = [:: h; w], 0 < h & 0 < w].
Proof.
rewrite /weights_of; case: (cat_dim1 sum_maps) => [f|e] //=.
case r_eq: (interpolate f size) => [resized|e] //= _.
have [b [c [hin [win [h [w [_ -> /and5P[_ _ _ h0 w0] _]]]]]]] := interpolateP r_eq.
by exists h, w.
Qed.

Lemma depth_loop_first (tensors : seq array) (depths : seq (seq array))
    (m : array) :
  depth_loop tensors depths None = Ok (Some m) ->
  exists h w, [/\ drop 2 (shape (head (zeros [::]) tensors)) = [:: h; w],
                  0 < h & 0 < w].
Proof.
case: depths => [|sum_maps depths] //=.
rewrite {1}/current_fusion_of.
case w_eq: (weights_of _ _) => [weights|e] //= _.
exact: weights_of_size w_eq.
Qed.

Lemma to_tensor_shape (v t : array) :
  to_tensor v = Ok t ->
  (exists h w, shape v = [:: h; w] /\ shape t = [:: 1; 3; h; w]) \/
  (exists h w c, shape v = [:: h; w; c] /\ shape t = [:: 1; c; h; w]).
Proof.
rewrite /to_tensor /transpose /ndim.
case sh: (shape v) => [|h [|w [|c [|d rst]]]] //=.
- by case=> <- /=; left; exists h, w; rewrite sh.
- by case=> <- /=; right; exists h, w, c.
- by case: ifP => [/perm_size|].
Qed.

Lemma _is_gray_true_shape (img : array) :
  _is_gray img = Ok true ->
  [\/ ndim img < 3, nth 0 (shape img) 2 = 1 | 2 < nth 0 (shape img) 2].
Proof.
rewrite /_is_gray; case: ltnP => [_ _|_]; first by constructor 1.
case: eqP => [-> _|_]; first by constructor 2.
case: (slice_axis2 img 0) => [b|e] //=; case: (slice_axis2 img 1) => [g|e] //=.
rewrite {1}/slice_axis2.
case: (shape img) => [|h [|w [|c rest]]] //=.
by case: ltnP => // lt_c _; constructor 3.
Qed.

Lemma normalized_of_shape (img v : array) :
  normalized_of img = Ok v ->
  if is_colour img
  then exists h w c, [/\ shape img = [:: h; w; c], 2 < c & shape v = [:: h; w]]
  else _is_gray img = Ok true /\ shape v = shape img.
Proof.
rewrite /normalized_of /is_colour.
case gray_eq: (_is_gray img) => [[]|e] //=; first by case=> <-.
rewrite /_RGB_to_YCbCr /cvtColor /=.
case sh: (shape img) => [|h [|w [|c [|? ?]]]] //=.
case: ifP => // /and3P[_ _ c34] /=.
rewrite /slice_axis2 /= => -[<-] /=.
by exists h, w, c; split=> //; case/orP: c34 => /eqP ->.
Qed.

Lemma broadcast_shape_2_2P (ha wa h w : nat) :
  broadcast_shape [:: ha; wa] [:: h; w] = Some [:: ha; wa] ->
  bdim ha h = Some ha /\ bdim wa w = Some wa.
Proof.
rewrite /broadcast_shape [rev _]/= [rev [:: h; _]]/= !bshape_rev_cons.
case: (bdim wa w) => [w'|] //; case: (bdim ha h) => [h'|] //=.
by case=> -> ->.
Qed.

Lemma broadcast_shape_2_3 (ha wa h w c : nat) :
  broadcast_shape [:: ha; wa] [:: h; w; c] <> Some [:: ha; wa].
Proof.
rewrite /broadcast_shape [rev _]/= [rev [:: h; _; _]]/= !bshape_rev_cons.
by case: (bdim wa c) => [w'|] //; case: (bdim ha w) => [h'|].
Qed.

Lemma assign_axis2_0P (a v a' : array) :
  assign_axis2_0 a v = Ok a' ->
  exists ha wa c rst,
    [/\ shape a = [:: ha, wa, c & rst], shape a' = shape a
      & broadcast_shape [:: ha, wa & rst]
          (strip_ones (ndim v - (size rst).+2) (shape v))
        = Some [:: ha, wa & rst]].
Proof.
rewrite /assign_axis2_0.
case sh_a: (shape a) => [|ha [|wa [|c rst]]] //.
case: ifP => // c_gt0; case: eqP => // bc [<-] /=.
by exists ha, wa, c, rst.
Qed.

Lemma _YCbCr_to_RGB_shape (ycbcr rgb : array) :
  _YCbCr_to_RGB ycbcr = Ok rgb ->
  exists h w, shape ycbcr = [:: h; w; 3] /\ shape rgb = [:: h; w; 3].
Proof.
rewrite /_YCbCr_to_RGB /cvtColor.
case: (shape ycbcr) => [|h [|w [|c [|? ?]]]] //.
by case: ifP => // /and3P[_ _ /eqP ->] [<-]; exists h, w.
Qed.

(** The shape of the running [fused_img] across the last loop of [fuse]:
    a plane until the first colour image, a three-channel image after
    it, which no further colour image accepts. *)
Lemma reconstruct_loop_shape (k : nat) (st0 st : store)
    (input_images : seq loc) (YCbCr_images : seq (option loc))
    (fused_img fused_img' : array) (st' : store) (h w : nat) :
  frame k st0 st -> all (fun l => l < k) input_images ->
  all (above k) YCbCr_images -> h != 1 -> w != 1 ->
  reconstruct_loop st input_images YCbCr_images fused_img
    = Ok (fused_img', st') ->
  let n := count (fun l => is_colour (load st0 l)) input_images in
  (shape fused_img = [:: h; w] ->
     n <= 1 /\ shape fused_img' = if n == 0 then [:: h; w] else [:: h; w; 3]) /\
  (shape fused_img = [:: h; w; 3] ->
     n = 0 /\ shape fused_img' = [:: h; w; 3]).
Proof.
move=> + + + h1 w1.
elim: input_images st YCbCr_images fused_img
    => [|img rest IH] st ys f fr /=.
  by move=> _ _ [<- _]; split.
case/andP=> lt_img valid above_ys; rewrite (frame_load fr lt_img) /is_colour.
have above_tl : all (above k) (behead ys).
  by case: (ys) above_ys => //= ? ? /andP[].
case gray_eq: (_is_gray (load st0 img)) => [[]|e] //=.
  by move/(IH _ _ _ fr valid above_tl); rewrite !add0n.
case ys_eq: ys above_ys => [|[l|] ys'] //= /andP[le_l _].
case a_eq: (assign_axis2_0 _ _) => [assigned|e] //=.
set st2 := update st l assigned.
case c_eq: (_YCbCr_to_RGB _) => [rgb|e] //=.
have fr2 : frame k st0 st2.
  by apply: (frame_trans fr); apply: frame_update => //; case: fr.
rewrite ys_eq /= in above_tl.
move/(IH _ _ _ fr2 valid above_tl) => [_ from3].
have load_l : load st2 l = assigned.
  by rewrite /load /st2 /update nth_set_nth /= eqxx.
move: c_eq; rewrite load_l => /_YCbCr_to_RGB_shape[ha [wa [sh_as sh_rgb]]].
have [ha' [wa' [c [rst [sh_a]]]]] := assign_axis2_0P a_eq.
rewrite sh_as sh_a => -[<- <- _ rst0]; rewrite -{}rst0 /= => bc.
split=> sh_f; move: bc; rewrite /ndim sh_f /=.
  case/broadcast_shape_2_2P=> /bdim_selfP[eh|eh] /bdim_selfP[ew|ew];
    rewrite ?eh ?ew ?eqxx // in h1 w1.
  subst ha wa.
  by have [|+ ->] := from3; [rewrite /= sh_rgb | rewrite /is_colour => ->].
case: (h) h1 => [|[|h']] //= _ bc; by case: (@broadcast_shape_2_3 _ _ _ _ _ bc).
Qed.

Variable features : seq VGG19.layer.

Lemma _fuse_first (tensors : seq array) (output : array) (c h w : nat) :
  shape (head (zeros [::]) tensors) = [:: 1; c; h; w] ->
  _fuse features tensors = Ok output -> 0 < h /\ 0 < w.
Proof.
move=> sh; rewrite /_fuse; case: (mapM _ tensors) => [maps|e] //=.
case d_eq: (depth_loop _ _ _) => [[m|]|e] //= _.
by have [h' [w' []]] := depth_loop_first d_eq; rewrite sh /= => -[<- <-].
Qed.

(** The tensor of an image: its shape, from the shape of the image. *)
Lemma tensor_of_image (img v t : array) :
  normalized_of img = Ok v -> to_tensor v = Ok t ->
  exists c h w,
    shape t = [:: 1; c; h; w] /\
    (shape img = [:: h; w] \/
     (exists2 c', ((c' == 1) || (2 < c')) && ((c' == 1) == (c == 1))
                & shape img = [:: h; w; c'])).
Proof.
move=> /normalized_of_shape + /to_tensor_shape.
case: (is_colour img) => [[h [w [c [sh_img lt_c sh_v]]]]|[gray sh_v]].
  rewrite sh_v; case=> [[h' [w' [[<- <-] sh_t]]]|[? [? [? []]]]] //.
  exists 3, h, w; split=> //; right; exists c => //.
  by rewrite lt_c orbT /=; case: (c) lt_c => [|[|?]].
rewrite sh_v; case=> [[h [w [sh_img sh_t]]]|[h [w [c [sh_img sh_t]]]]].
  by exists 3, h, w; split=> //; left.
exists c, h, w; split=> //; right; exists c => //.
rewrite eqxx andbT.
by case: (_is_gray_true_shape gray); rewrite /ndim sh_img //= => ->; rewrite ?orbT.
Qed.

Lemma fuse_returnsP (st : store) (img : loc) (rest : seq loc)
    (out : ndarray Z) (st' : store) :
  all (fun l => l < size st) (img :: rest) ->
  fuse features st (img :: rest) = Ok (out, st') ->
  let n := count (fun l => is_colour (load st l)) (img :: rest) in
  exists h w,
    [/\ 1 < h, 1 < w,
        shape (load st img) = [:: h; w] \/
        (exists2 c, 2 < c & shape (load st img) = [:: h; w; c]),
        n <= 1
      & shape out = if n == 0 then [:: h; w] else [:: h; w; 3]].
Proof.
move=> valid /fuseP[fused].
move=> /fuse_floatP[ys [ns [st1 [tensors [output [fused_img]]]]]].
case=> c_eq t_eq f_eq s_eq r_eq -> /=.
have [fr1 _ above_ys] :=
  convert_loop_spec (frame_refl (leqnn (size st))) valid c_eq.
case: ns t_eq {c_eq} => [|r ns'] //= t_eq [read_r _].
move: t_eq; rewrite /_tranfer_to_tensor mapM_cons read_r.
case n_eq: (normalized_of (load st img)) => [v|e] //=.
case tt_eq: (to_tensor v) => [t|e] //=.
case: (mapM _ ns') => [ts|e] //= [tensors_eq].
have [c [h [w [sh_t sh_img]]]] := tensor_of_image n_eq tt_eq.
have sh_hd : shape (head (zeros [::]) tensors) = [:: 1; c; h; w].
  by rewrite -tensors_eq.
have [c1 h1 w1 sh_f] := luminance_slice sh_hd f_eq s_eq.
have [h_gt0 w_gt0] := _fuse_first sh_hd f_eq.
have [from2 _] := reconstruct_loop_shape fr1 valid above_ys h1 w1 r_eq.
have [le_n sh_fused] := from2 sh_f.
exists h, w; split=> //.
- by case: (h) h1 h_gt0 => [|[|?]].
- by case: (w) w1 w_gt0 => [|[|?]].
- case: sh_img => [|[c' /andP[c'_ok /eqP c'_c] sh_img]]; [by left | right].
  by exists c' => //; move: c'_ok; rewrite c'_c (negPf c1).
Qed.

Lemma fuse_nil (st : store) : fuse features st [::] = Raise AttributeError.
Proof. by []. Qed.

End Returns.

(** A call of [fuse] returns only when its first image has at least two
    rows and two columns and, if it has a channel axis, at least three
    channels: [np.squeeze] drops every axis of length one of the fused
    tensor, and the luminance slice [[:, :, 0]] of what is left raises
    [IndexError]. *)
Theorem fuse_first_image_shape (features : seq VGG19.layer) (st : store)
    (img : loc) (rest : seq loc) (out : ndarray Z) (st' : store) :
  all (fun l => l < size st)%N (img :: rest) ->
  fuse features st (img :: rest) = Ok (out, st') ->
  exists h w,
    [/\ (1 < h)%N, (1 < w)%N
      & shape (load st img) = [:: h; w] \/
        (exists2 c, (2 < c)%N & shape (load st img) = [:: h; w; c])].
Proof.
move=> valid f_eq; have [h [w [h1 w1 sh _ _]]] := fuse_returnsP valid f_eq.
by exists h, w.
Qed.

Lemma fuse_first_image_shape_witness :
  exists h w,
    [/\ (1 < h)%N, (1 < w)%N
      & shape (load flat_store 0) = [:: h; w] \/
        (exists2 c, (2 < c)%N & shape (load flat_store 0) = [:: h; w; c])].
Proof.
exact: (@fuse_first_image_shape four_layers flat_store 0%N [::]
          flat_result.1 flat_result.2 isT erefl).
Defined.

(** A call of [fuse] returns only when at most one of its images is a
    colour image.  The reconstruction of the first colour image leaves a
    three-channel [fused_img], which the luminance plane of a second
    colour image cannot take: the in-place assignment raises. *)
Theorem fuse_at_most_one_colour (features : seq VGG19.layer) (st : store)
    (input_images : seq loc) (out : ndarray Z) (st' : store) :
  all (fun l => l < size st)%N input_images ->
  fuse features st input_images = Ok (out, st') ->
  (count (fun l => is_colour (load st l)) input_images <= 1)%N.
Proof.
case: input_images => [|img rest] // valid f_eq.
by have [h [w [_ _ _ le_n _]]] := fuse_returnsP valid f_eq.
Qed.

Lemma fuse_at_most_one_colour_witness :
  (count (fun l => is_colour (load flat_store l)) [:: 0%N] <= 1)%N.
Proof.
exact: (@fuse_at_most_one_colour four_layers flat_store [:: 0%N]
          flat_result.1 flat_result.2 isT erefl).
Defined.

(** The shape of the image that [fuse] returns: the rows and columns of
    the first input image, and three channels exactly when some input
    image is a colour image. *)
Theorem fuse_output_shape (features : seq VGG19.layer) (st : store)
    (input_images : seq loc) (out : ndarray Z) (st' : store) :
  all (fun l => l < size st)%N input_images ->
  fuse features st input_images = Ok (out, st') ->
  shape out =
    take 2 (shape (load st (head 0%N input_images)))
    ++ (if has (fun l => is_colour (load st l)) input_images
        then [:: 3%N] else [::]).
Proof.
case: input_images => [|img rest] valid f_eq; first by rewrite fuse_nil in f_eq.
have [h [w [_ _ sh _ ->]]] := fuse_returnsP valid f_eq.
rewrite has_count lt0n [head _ _]/=.
by case: sh => [->|[c _ ->]]; case: (count _ _ == _).
Qed.

Lemma fuse_output_shape_witness :
  shape flat_result.1 =
    take 2 (shape (load flat_store (head 0%N [:: 0%N])))
    ++ (if has (fun l => is_colour (load flat_store l)) [:: 0%N]
        then [:: 3%N] else [::]).
Proof.
exact: (@fuse_output_shape four_layers flat_store [:: 0%N]
          flat_result.1 flat_result.2 isT erefl).
Defined.

(** ** The images of a call that returns *)

Section Images.

Local Open Scope nat_scope.

Lemma tensors_of_images (st0 st1 : store) (input_images : seq loc)
    (normalized_images : seq aref) (tensors : seq array) :
  [seq read st1 r | r <- normalized_images]
    = [seq normalized_of (load st0 l) | l <- input_images] ->
  _tranfer_to_tensor st1 normalized_images = Ok tensors ->
  size tensors = size input_images /\
  forall i, i < size input_images ->
    exists2 v, normalized_of (load st0 (nth 0 input_images i)) = Ok v
             & to_tensor v = Ok (nth (zeros [::]) tensors i).
Proof.
rewrite /_tranfer_to_tensor.
elim: normalized_images input_images tensors => [|r ns IH] [|l imgs] ts //=.
  by move=> _ [<-].
case=> read_eq reads; rewrite read_eq.
case n_eq: (normalized_of (load st0 l)) => [v|e] //=.
case t_eq: (to_tensor v) => [t|e] //=.
case m_eq: (mapM _ ns) => [ts'|e] //= [<-] /=.
have [-> nths] := IH _ _ reads m_eq.
by split=> // -[_|i /nths //]; exists v.
Qed.

Variable features : seq VGG19.layer.

(** Every tensor of a call that returns stems from an image. *)
Lemma fuse_tensorsP (st : store) (input_images : seq loc)
    (out : ndarray Z) (st' : store) :
  all (fun l => l < size st) input_images ->
  fuse features st input_images = Ok (out, st') ->
  exists tensors output,
    [/\ _fuse features tensors = Ok output,
        size tensors = size input_images
      & forall i, i < size input_images ->
          exists2 v,
            normalized_of (load st (nth 0 input_images i)) = Ok v
          & to_tensor v = Ok (nth (zeros [::]) tensors i)].
Proof.
move=> valid /fuseP[fused].
move=> /fuse_floatP[ys [ns [st1 [tensors [output [fused_img]]]]]].
case=> c_eq t_eq f_eq _ _ _.
have [_ _ _ reads] :=
  convert_loop_spec (frame_refl (leqnn (size st))) valid c_eq.
have [sz nths] := tensors_of_images reads t_eq.
by exists tensors, output.
Qed.

End Images.

(** A call of [fuse] returns only when every image is two-dimensional or
    three-dimensional, a colour image has 3 or 4 channels, and a gray
    image with a channel axis has one channel or at least three. *)
Theorem fuse_image_shapes (features : seq VGG19.layer) (st : store)
    (input_images : seq loc) (out : ndarray Z) (st' : store) :
  all (fun l => l < size st)%N input_images ->
  fuse features st input_images = Ok (out, st') ->
  forall l, l \in input_images ->
    exists h w,
      shape (load st l) = [:: h; w] \/
      (exists2 c,
         (if is_colour (load st l) then (c == 3) || (c == 4)
          else (c == 1) || (2 < c))%N
       & shape (load st l) = [:: h; w; c]).
Proof.
move=> valid f_eq l in_l.
have [tensors [output [_ _ nths]]] := fuse_tensorsP valid f_eq.
have lt_i : (index l input_images < size input_images)%N by rewrite index_mem.
have [v] := nths _ lt_i; rewrite nth_index // => n_eq t_eq.
have [c [h [w [_ sh_img]]]] := tensor_of_image n_eq t_eq.
exists h, w; case: sh_img => [|[c' /andP[c'_ok _] sh_img]]; [by left | right].
exists c' => //.
move: n_eq; rewrite /normalized_of /is_colour.
case: (_is_gray (load st l)) => [[]|e] //=.
rewrite /_RGB_to_YCbCr /cvtColor /= sh_img.
by case: ifP => // /and3P[].
Qed.

Lemma fuse_image_shapes_witness :
  exists h w,
    shape (load flat_store 0) = [:: h; w] \/
    (exists2 c,
       (if is_colour (load flat_store 0) then (c == 3) || (c == 4)
        else (c == 1) || (2 < c))%N
     & shape (load flat_store 0) = [:: h; w; c]).
Proof.
exact: (@fuse_image_shapes four_layers flat_store [:: 0%N]
          flat_result.1 flat_result.2 isT erefl 0%N isT).
Defined.

(** ** Images of different sizes *)

Section MapMNth.

Variables (A B : Type) (f : A -> result B).

Lemma mapM_nth (x0 : A) (y0 : B) (s : seq A) (ys : seq B) :
  mapM f s = Ok ys ->
  forall i, (i < size s)%N -> f (nth x0 s i) = Ok (nth y0 ys i).
Proof.
elim: s ys => [|x s IH] ys //=.
case fx: (f x) => [y|e] //=; case m_eq: (mapM f s) => [zs|e] //= [<-].
by case=> [|i] //=; exact: IH.
Qed.

End MapMNth.

Section SameSize.

Local Open Scope nat_scope.

Variable features : seq VGG19.layer.

(** The extractor keeps the rows and columns of its input up to the tap,
    as convolutions of kernel 3 and padding 1 and rectifiers do. *)
Hypothesis keeps_size : forall x fms,
  VGG19.forward features x = Ok fms ->
  all (fun y => drop 2 (shape y) == drop 2 (shape x)) fms.

Lemma sum_dim1_keep_drop2 (y m : array) :
  sum_dim1_keep y = Ok m -> drop 2 (shape m) = drop 2 (shape y).
Proof.
by rewrite /sum_dim1_keep; case: (shape y) => [|b [|c rest]] //= [<-].
Qed.

Lemma sum_maps_of_drop2 (t : array) (maps : seq array) :
  sum_maps_of features t = Ok maps ->
  all (fun m => drop 2 (shape m) == drop 2 (shape t)) maps.
Proof.
rewrite /sum_maps_of /model.
case fw: (VGG19.forward features t) => [fms|e] //=.
elim: fms maps {fw}(keeps_size fw) => [|y fms IH] maps /=; first by move=> _ [<-].
case/andP=> /eqP y_eq fms_ok.
case s_eq: (sum_dim1_keep y) => [m|e] //=.
case m_eq: (mapM _ fms) => [ms|e] //= [<-] /=.
by rewrite (sum_dim1_keep_drop2 s_eq) y_eq eqxx (IH _ fms_ok m_eq).
Qed.

Lemma cat_dim1_drop2 (ts : seq array) (f : array) :
  cat_dim1 ts = Ok f ->
  all (fun u => drop 2 (shape u) == drop 2 (shape (head (zeros [::]) ts))) ts.
Proof.
case: ts => [|t ts] //=; case: ifP => // _; case: ifP => // ok _.
rewrite eqxx /=; apply: sub_all ok => u /and3P[_ _ /eqP <-].
exact: eqxx.
Qed.

Lemma zip_star_first (A : Type) (x0 : A) (rows : seq (seq A))
    (col : seq A) (cols : seq (seq A)) :
  zip_star rows = col :: cols ->
  col = [seq head x0 r | r <- rows] /\ all (fun r => 0 < size r) rows.
Proof.
rewrite /zip_star; case: (head [::] rows) => [|x first] //=.
case: ifP => // nonempty [<- _]; split=> //.
by elim: rows nonempty {x first} => [|[|y r] rows IH] //= /IH ->; rewrite take0.
Qed.

Lemma _fuse_same_size (tensors : seq array) (output : array) :
  _fuse features tensors = Ok output ->
  all (fun t => drop 2 (shape t)
                == drop 2 (shape (head (zeros [::]) tensors))) tensors.
Proof.
rewrite /_fuse; case maps_eq: (mapM _ tensors) => [maps|e] //=.
case z_eq: (zip_star maps) => [|col cols] //=.
rewrite {1}/current_fusion_of {1}/weights_of.
case c_eq: (cat_dim1 col) => [f|e] //= _.
have [col_eq nonempty] := zip_star_first (zeros [::]) z_eq.
have sz := mapM_size maps_eq.
have drop2 i : i < size tensors ->
    drop 2 (shape (nth (zeros [::]) tensors i))
    = drop 2 (shape (nth (zeros [::]) col i)).
  move=> lt_i; have := mapM_nth (zeros [::]) [::] maps_eq lt_i.
  move/sum_maps_of_drop2; rewrite col_eq.
  rewrite (nth_map [::]) ?sz //.
  have: 0 < size (nth [::] maps i) by apply: (all_nthP _ nonempty); rewrite sz.
  by case: (nth [::] maps i) => [|m ms] //= _ /andP[/eqP ->].
have col_ok := cat_dim1_drop2 c_eq.
have sz_col : size col = size tensors by rewrite col_eq size_map.
apply/(all_nthP (zeros [::])) => i lt_i.
have lt0 : 0 < size tensors by apply: leq_ltn_trans lt_i.
rewrite drop2 // -nth0 [in X in _ == X]drop2 // nth0.
by apply: (all_nthP _ col_ok); rewrite sz_col.
Qed.

End SameSize.

(** With an extractor that keeps the rows and columns of its input, a
    call of [fuse] returns only when all images have the rows and columns
    of the first one: [torch.cat] refuses saliency maps of different
    sizes. *)
Theorem fuse_same_size (features : seq VGG19.layer) (st : store)
    (input_images : seq loc) (out : ndarray Z) (st' : store) :
  (forall x fms, VGG19.forward features x = Ok fms ->
     all (fun y => drop 2 (shape y) == drop 2 (shape x)) fms) ->
  all (fun l => l < size st)%N input_images ->
  fuse features st input_images = Ok (out, st') ->
  forall l, l \in input_images ->
    take 2 (shape (load st l))
    = take 2 (shape (load st (head 0%N input_images))).
Proof.
move=> keeps_size valid f_eq.
have [tensors [output [fuse_eq sz nths]]] := fuse_tensorsP valid f_eq.
have same := _fuse_same_size keeps_size fuse_eq.
have rows_cols i : (i < size input_images)%N ->
    take 2 (shape (load st (nth 0%N input_images i)))
    = drop 2 (shape (nth (zeros [::]) tensors i)).
  move=> lt_i; have [v n_eq t_eq] := nths _ lt_i.
  have [c [h [w [-> sh_img]]]] := tensor_of_image n_eq t_eq.
  by case: sh_img => [->|[c' _ ->]].
move=> l in_l.
have lt_i : (index l input_images < size input_images)%N by rewrite index_mem.
have lt0 : (0 < size input_images)%N by apply: leq_ltn_trans lt_i.
rewrite -[in LHS](nth_index 0%N in_l) -nth0 !rows_cols //.
rewrite nth0; apply/eqP; apply: (all_nthP _ same).
by rewrite sz.
Qed.

(** Two flat gray images of one size. *)
Definition flat_pair : store :=
  [:: full [:: 2; 2]%N 100%:R; full [:: 2; 2]%N 200%:R].

Definition flat_pair_result : ndarray Z * store :=
  if fuse four_layers flat_pair [:: 0%N; 1%N] is Ok r then r
  else (astype_uint8 (zeros [::]), [::]).

Lemma four_layers_keep_size (x : array) (fms : seq array) :
  VGG19.forward four_layers x = Ok fms ->
  all (fun y => drop 2 (shape y) == drop 2 (shape x)) fms.
Proof. by case=> <- /=; rewrite eqxx. Qed.

Lemma fuse_same_size_witness :
  take 2 (shape (load flat_pair 1))
  = take 2 (shape (load flat_pair (head 0%N [:: 0%N; 1%N]))).
Proof.
exact: (@fuse_same_size four_layers flat_pair [:: 0%N; 1%N]
          flat_pair_result.1 flat_pair_result.2 four_layers_keep_size
          isT erefl 1%N isT).
Defined.

(** ** A network without the tap *)

Section NoTap.

Local Open Scope nat_scope.

Variable features : seq VGG19.layer.
Hypothesis shallow : size features <= 3.

Lemma forward_shallow (x : array) (fms : seq array) :
  VGG19.forward features x = Ok fms -> fms = [::].
Proof.
move/forward_from_size; rewrite /= add0n ltnNge shallow /=.
by case: fms.
Qed.

Lemma sum_maps_of_shallow (tensors : seq array) :
  mapM (sum_maps_of features) tensors
  = (let* _ := mapM (VGG19.forward features) tensors in
     Ok (nseq (size tensors) [::])).
Proof.
elim: tensors => [|t ts IH] //; rewrite !mapM_cons IH /sum_maps_of /model.
case fw: (VGG19.forward features t) => [fms|e] //=.
rewrite (forward_shallow fw) /=.
by case: (mapM _ ts).
Qed.

Lemma zip_star_empty_rows (A : Type) (n : nat) :
  zip_star (nseq n ([::] : seq A)) = [::].
Proof. by case: n. Qed.

Lemma _fuse_shallow (tensors : seq array) :
  _fuse features tensors
  = (let* _ := mapM (VGG19.forward features) tensors in Raise AttributeError).
Proof.
rewrite /_fuse sum_maps_of_shallow.
case: (mapM _ tensors) => [fs|e] //=.
by rewrite zip_star_empty_rows.
Qed.

End NoTap.

(** [_fuse] on a network of fewer than four layers, or on no tensor at
    all, runs the network on every tensor and then raises
    [AttributeError]: no tap depth exists, [max_fusion] is still [None]
    when [max_fusion.cpu()] is evaluated. *)
Theorem _fuse_without_tap (features : seq VGG19.layer) (tensors : seq array) :
  (size features <= 3)%N || nilp tensors ->
  _fuse features tensors
  = (let* _ := mapM (VGG19.forward features) tensors in Raise AttributeError).
Proof.
case/orP=> [shallow|]; first exact: _fuse_shallow.
by case: tensors.
Qed.

Lemma _fuse_without_tap_witness :
  _fuse (nseq 3 (fun x => Ok x)) [:: gradient_tensor]
  = (let* _ := mapM (VGG19.forward (nseq 3 (fun x => Ok x)))
                 [:: gradient_tensor] in
     Raise AttributeError).
Proof.
exact: (@_fuse_without_tap (nseq 3 (fun x => Ok x)) [:: gradient_tensor] isT).
Defined.

(** ** The fused tensor is a convex combination *)

(** When every tensor holds values of [[0, 1]], so does the output of
    [_fuse]: at each pixel the weights are positive and sum to one, and
    the maximum over tap depths stays in the interval. *)
Theorem _fuse_unit_range (features : seq VGG19.layer) (tensors : seq array)
    (output : array) :
  List.Forall (fun t => ndim t = 4%N /\ unit_range t) tensors ->
  _fuse features tensors = Ok output ->
  forall ix, in_bounds (shape output) ix -> 0 <= get output ix <= 1.
Proof. exact: _fuse_range. Qed.

Lemma gradient_tensor_range : ndim gradient_tensor = 4%N /\ unit_range gradient_tensor.
Proof.
split=> //; case=> [|b [|k [|i [|j [|? ?]]]]] //=; rewrite ?andbF //.
case/and5P=> _ _ lt_i lt_j _.
rewrite divr_ge0 ?ler0n // ler_pdivrMr ?ltr0n // mul1r ler_nat.
by case: i j lt_i lt_j => [|[|i]] [|[|j]].
Qed.

Lemma _fuse_unit_range_witness :
  _fuse four_layers (nseq 2 gradient_tensor) = Ok gradient_fused /\
  0 <= get gradient_fused [:: 1; 1; 2]%N <= 1.
Proof.
split; first by [].
apply: (@_fuse_unit_range four_layers (nseq 2 gradient_tensor) gradient_fused).
- by do 2 (apply: List.Forall_cons; first exact: gradient_tensor_range).
- by [].
- by [].
Defined.

(** ** [procrustes] *)

Import Procrustes.

Section ProcrustesSteps.

Local Open Scope nat_scope.

(** The values of the steps of [procrustes] on arrays of matching
    shapes. *)

(** [a - v], [a + v] for a matrix [a] and a row [v]. *)
Definition row_op (f : R -> R -> R) (a v : array) (n m : nat) : array :=
  NdArray [:: n; m]
    (fun ix => f (get a (bindex [:: n; m] ix)) (get v (bindex [:: m] ix))).

(** [u - v] for two rows. *)
Definition rows_op (f : R -> R -> R) (u v : array) (m : nat) : array :=
  NdArray [:: m]
    (fun ix => f (get u (bindex [:: m] ix)) (get v (bindex [:: m] ix))).

(** The matrix product and the product of a row and a matrix. *)
Definition matmul (a b : array) (p q r : nat) : array :=
  NdArray [:: p; r]
    (fun ix => (\sum_(k < q) get a [:: nth 0 ix 0; (k : nat)]
                             * get b [:: (k : nat); nth 0 ix 1])%R).

Definition vecmul (a b : array) (q r : nat) : array :=
  NdArray [:: r]
    (fun ix => (\sum_(k < q) get a [:: (k : nat)]
                             * get b [:: (k : nat); nth 0 ix 0])%R).

Lemma np_op2_row (f : R -> R -> R) (a v : array) (n m : nat) :
  shape a = [:: n; m] -> shape v = [:: m] ->
  np_op2 f a v = Ok (row_op f a v n m).
Proof.
by move=> sha shv; rewrite /np_op2 /broadcast2 sha shv broadcast_shape_row.
Qed.

Lemma np_op2_rows (f : R -> R -> R) (u v : array) (m : nat) :
  shape u = [:: m] -> shape v = [:: m] ->
  np_op2 f u v = Ok (rows_op f u v m).
Proof.
by move=> shu shv; rewrite /np_op2 /broadcast2 shu shv broadcast_shape_same.
Qed.

Lemma dot_mismatch (a b : array) (p q q' r : nat) :
  shape a = [:: p; q] -> shape b = [:: q'; r] -> q != q' ->
  dot a b = Raise ValueError.
Proof. by rewrite /dot => -> -> /negPf ->. Qed.

Lemma dot_mm (a b : array) (p q r : nat) :
  shape a = [:: p; q] -> shape b = [:: q; r] ->
  dot a b = Ok (matmul a b p q r).
Proof. by rewrite /dot => -> ->; rewrite eqxx. Qed.

Lemma dot_vm (a b : array) (q r : nat) :
  shape a = [:: q] -> shape b = [:: q; r] ->
  dot a b = Ok (vecmul a b q r).
Proof. by rewrite /dot => -> ->; rewrite eqxx. Qed.

Lemma bindex2 (n m i j : nat) :
  i < n -> j < m -> bindex [:: n; m] [:: i; j] = [:: i; j].
Proof. by move=> lt_i lt_j; apply: bindex_in_bounds; rewrite /= lt_i lt_j. Qed.

Lemma bindex1 (m j : nat) : j < m -> bindex [:: m] [:: j] = [:: j].
Proof. by move=> lt_j; apply: bindex_in_bounds; rewrite /= lt_j. Qed.

Lemma bindex_row (m i j : nat) : j < m -> bindex [:: m] [:: i; j] = [:: j].
Proof. by move=> lt_j; rewrite -[RHS](bindex1 lt_j). Qed.

Lemma row_op_get (f : R -> R -> R) (a v : array) (n m i j : nat) :
  i < n -> j < m ->
  get (row_op f a v n m) [:: i; j] = f (get a [:: i; j]) (get v [:: j]).
Proof.
move=> lt_i lt_j.
rewrite -[LHS]/(f (get a (bindex [:: n; m] [:: i; j]))
                  (get v (bindex [:: m] [:: i; j]))).
by rewrite bindex2 // bindex_row.
Qed.

Lemma rows_op_get (f : R -> R -> R) (u v : array) (m j : nat) :
  j < m -> get (rows_op f u v m) [:: j] = f (get u [:: j]) (get v [:: j]).
Proof.
move=> lt_j.
rewrite -[LHS]/(f (get u (bindex [:: m] [:: j])) (get v (bindex [:: m] [:: j]))).
by rewrite bindex1.
Qed.

(** [X - X.mean(0)] for a two-dimensional [X]. *)
Definition centred (X : array) : array :=
  row_op (fun x mu => x - mu)%R X (mean0 X)
    (nth 0 (shape X) 0) (nth 0 (shape X) 1).

Lemma np_sub_mean (X : array) (n m : nat) :
  shape X = [:: n; m] ->
  np_op2 (fun x mu : R => x - mu)%R X (mean0 X) = Ok (centred X).
Proof.
by move=> sh; rewrite (@np_op2_row _ _ _ n m) /centred /= sh.
Qed.

Lemma centred_shape (X : array) (n m : nat) :
  shape X = [:: n; m] -> shape (centred X) = [:: n; m].
Proof. by rewrite /centred => ->. Qed.

Lemma centred_get (X : array) (n m i j : nat) :
  shape X = [:: n; m] -> i < n -> j < m ->
  get (centred X) [:: i; j] = (get X [:: i; j] - get (mean0 X) [:: j])%R.
Proof. by move=> sh lt_i lt_j; rewrite /centred sh [nth _ _ _]/= [nth _ _ 1]/= row_op_get. Qed.

(** [normX]: the Frobenius norm of the centred point set. *)
Definition centred_norm (X : array) : R :=
  sqrt (sum_all (amap (fun x => x ^+ 2)%R (centred X))).

(** [X0] after [X0 /= normX]. *)
Definition normalised (X : array) : array :=
  amap (fun x => x / centred_norm X)%R (centred X).

Lemma bind_Ok (A B : Type) (x : A) (k : A -> result B) :
  Py.bind (Ok x) k = k x.
Proof. by []. Qed.

Variable svd : array -> array * array * array.

(** The first steps of [procrustes], up to the matrix product of line 57. *)
Lemma procrustes_start (X Y : array) (scaling : bool)
    (reflection : reflection_arg) (n m ny my : nat) (e : exn) :
  shape X = [:: n; m] -> shape Y = [:: ny; my] -> m <= my ->
  dot (T_ (normalised X)) (normalised Y) = Raise e ->
  procrustes svd X Y scaling reflection = Raise e.
Proof.
move=> shX shY le_m dotA; rewrite /procrustes shX shY; cbv zeta.
rewrite (np_sub_mean shX) (np_sub_mean shY) !bind_Ok ltnNge le_m.
rewrite [negb true]/=; cbv beta iota; rewrite bind_Ok.
by rewrite dotA.
Qed.

(** What [np.linalg.svd(A, full_matrices=False)] returns for a [p x q]
    matrix: [U] is [p x k], [s] has [k] entries and [Vt] is [k x q], with
    [k] the smaller of [p] and [q]. *)
Definition svd_shapes : Prop :=
  forall A p q,
    shape A = [:: p; q] ->
    let '(U, s, Vt) := svd A in
    [/\ shape U = [:: p; minn p q], shape s = [:: minn p q]
      & shape Vt = [:: minn p q; q]].

Hypothesis svd_shape : svd_shapes.

Lemma procrustesP (X Y : array) (scaling : bool) (reflection : reflection_arg)
    (n m my : nat) (A U s Vt : array) :
  shape X = [:: n; m] -> shape Y = [:: n; my] -> m <= my ->
  (centred_norm Y != 0)%R ->
  (if reflection is force _ then my = m /\ 0 < m else True) ->
  dot (T_ (normalised X)) (normalised Y) = Ok A -> svd A = (U, s, Vt) ->
  exists T0 d Z tf,
    [/\ dot (T_ Vt) (T_ U) = Ok T0,
        procrustes svd X Y scaling reflection = Ok (d, Z, tf),
        match reflection with
        | best => rotation tf = T0
        | force r =>
            exists2 det0, det T0 = Ok det0
            & if r != (det0 < 0)%R
              then exists2 V', negate_last_column (T_ Vt) = Ok V'
                             & dot V' (T_ U) = Ok (rotation tf)
              else rotation tf = T0
        end,
        [/\ shape Z = [:: n; m], shape (rotation tf) = [:: my; m]
          & shape (translation tf) = [:: m]]
      & forall i j, i < n -> j < m ->
          get Z [:: i; j]
          = (scale tf * (\sum_(k < my) get Y [:: i; (k : nat)]
                                       * get (rotation tf) [:: (k : nat); j])
             + get (translation tf) [:: j])%R].
Proof.
move=> shX shY le_m normY_ne0 refl_ok dotA svdA.
have shA : shape A = [:: m; my].
  by move: dotA; rewrite (@dot_mm _ _ m n my) /= ?shX ?shY // => -[<-].
have := svd_shape shA; rewrite svdA (minn_idPl le_m) => -[shU shs shVt].
have shV : shape (T_ Vt) = [:: my; m] by rewrite /= shVt.
have shUt : shape (T_ U) = [:: m; m] by rewrite /= shU.
have dotT := dot_mm shV shUt.
set T0 := matmul _ _ _ _ _ in dotT; exists T0.
rewrite /procrustes shX shY; cbv zeta.
rewrite (np_sub_mean shX) (np_sub_mean shY) !bind_Ok ltnNge le_m.
rewrite [negb true]/=; cbv beta iota; rewrite bind_Ok.
rewrite dotA bind_Ok svdA; cbv beta iota; rewrite dotT bind_Ok.
set stage := (stage in Py.bind stage _).
set K := (K in Py.bind _ K).
have tail V1 s1 T1 : shape T1 = [:: my; m] ->
    exists d Z tf,
      [/\ K (V1, s1, T1) = Ok (d, Z, tf), rotation tf = T1,
          shape Z = [:: n; m], shape (translation tf) = [:: m]
        & forall i j, i < n -> j < m ->
            get Z [:: i; j]
            = (scale tf * (\sum_(k < my) get Y [:: i; (k : nat)]
                                         * get T1 [:: (k : nat); j])
               + get (translation tf) [:: j])%R].
  move=> shT1; rewrite /K.
  have shnY : shape (normalised Y) = [:: n; my] by rewrite /= shY.
  have shmuY : shape (mean0 Y) = [:: my] by rewrite /= shY.
  have shmuX : shape (mean0 X) = [:: m] by rewrite /= shX.
  rewrite (dot_vm shmuY shT1).
  have -> : dot (amap (fun y => y / centred_norm Y)%R (centred Y)) T1
            = dot (normalised Y) T1 by [].
  rewrite (dot_mm shnY shT1).
  set YT := matmul _ _ _ _ _; set muYT := vecmul _ _ _ _.
  have YT_get i j : i < n -> j < m ->
      (get YT [:: i; j] * centred_norm Y
       = \sum_(k < my) get Y [:: i; (k : nat)] * get T1 [:: (k : nat); j]
         - get muYT [:: j])%R.
    move=> lt_i lt_j.
    rewrite -[get YT _]/(\sum_(k < my) get (normalised Y) [:: i; (k : nat)]
                                       * get T1 [:: (k : nat); j])%R.
    rewrite -[get muYT _]/(\sum_(k < my) get (mean0 Y) [:: (k : nat)]
                                         * get T1 [:: (k : nat); j])%R.
    rewrite mulr_suml -sumrB; apply: eq_bigr => k _.
    rewrite -[get (normalised Y) _]/(get (centred Y) [:: i; (k : nat)]
                                     / centred_norm Y)%R.
    rewrite (centred_get shY) // mulrAC divfK // mulrBl.
    by [].
  case: (scaling); rewrite !bind_Ok.
    rewrite (@np_op2_row _ _ _ n m) // !bind_Ok (@np_op2_rows _ _ _ m) //.
    rewrite bind_Ok.
    set Z := row_op _ _ _ _ _; set c := rows_op _ _ _ _; set b := (b in Tform _ b _).
    exists (1 - sum_all s1 ^+ 2)%R, Z, (Tform T1 b c); split=> // i j lt_i lt_j.
    rewrite row_op_get // rows_op_get //.
    rewrite -[scale _]/b -[get (amap _ YT) _]/(_ * get YT [:: i; j])%R.
    rewrite -[get (amap _ muYT) _]/(b * get muYT [:: j])%R.
    rewrite addrCA -mulrBr -(YT_get i j lt_i lt_j) addrC; congr (_ + _)%R.
    by rewrite [(get YT _ * _)%R]mulrC mulrA /b divfK // [(sum_all s1 * _)%R]mulrC.
  rewrite (@np_op2_row _ _ _ n m) // !bind_Ok (@np_op2_rows _ _ _ m) //.
  rewrite bind_Ok.
  set Z := row_op _ _ _ _ _; set c := rows_op _ _ _ _; set d := (d in Ok (d, _, _)).
  exists d, Z, (Tform T1 1%R c); split=> // i j lt_i lt_j.
  rewrite row_op_get // rows_op_get //.
  rewrite -[scale _]/(1%R) -[get (amap _ YT) _]/(_ * get YT [:: i; j])%R.
  rewrite -[get (amap _ muYT) _]/(1 * get muYT [:: j])%R !mul1r.
  rewrite addrCA -(YT_get i j lt_i lt_j) addrC; congr (_ + _)%R.
  by rewrite mulrC.
have [V1 [s1 [T1 [-> shT1 rel]]]] : exists V1 s1 T1,
    [/\ stage = Ok (V1, s1, T1), shape T1 = [:: my; m]
      & match reflection with
        | best => T1 = T0
        | force r =>
            exists2 det0, det T0 = Ok det0
            & if r != (det0 < 0)%R
              then exists2 V', negate_last_column (T_ Vt) = Ok V'
                             & dot V' (T_ U) = Ok T1
              else T1 = T0
        end].
  rewrite /stage; case: (reflection) refl_ok => [_|r [e_my m_gt0]].
    by exists (T_ Vt), s, T0.
  subst my.
  have detT0 : det T0 = Ok (\det (mx_of m m T0))%R by rewrite /det /= eqxx.
  rewrite detT0 bind_Ok; set det0 := (\det _)%R.
  case: ifP => flip; last first.
    by exists (T_ Vt), s, T0; split=> //; exists det0 => //; rewrite flip.
  have [V' negV shV'] : exists2 V', negate_last_column (T_ Vt) = Ok V'
                                  & shape V' = [:: m; m].
    by rewrite /negate_last_column shV m_gt0; eexists.
  have [s' negs] : exists s', negate_last s = Ok s'.
    by rewrite /negate_last shs m_gt0; eexists.
  rewrite negV negs !bind_Ok (dot_mm shV' shUt) bind_Ok.
  exists V', s', (matmul V' (T_ U) m m m); split=> //.
  by exists det0 => //; rewrite flip; exists V' => //; rewrite (dot_mm shV' shUt).
rewrite bind_Ok.
have [d [Z [tf [-> rot shZ shc formula]]]] := tail V1 s1 T1 shT1.
by exists d, Z, tf; split=> //; rewrite ?rot.
Qed.



End ProcrustesSteps.

(** [procrustes] raises [ValueError] on point sets of different sizes:
    with [Y] of at least as many columns as [X] and a different number of
    rows, the matrix product [np.dot(X0.T, Y0)] has operands that do not
    align. *)
Theorem procrustes_rows_mismatch (svd : array -> array * array * array)
    (X Y : array) (scaling : bool) (reflection : reflection_arg)
    (n m ny my : nat) :
  shape X = [:: n; m] -> shape Y = [:: ny; my] -> (m <= my)%N -> n != ny ->
  procrustes svd X Y scaling reflection = Raise ValueError.
Proof.
move=> shX shY le_m ne_n.
apply: (@procrustes_start svd _ _ scaling reflection _ _ _ _ _ shX shY le_m).
by rewrite (@dot_mismatch _ _ m n ny my) //= ?shX ?shY.
Qed.

(** Three points of the plane. *)
Definition three_points_2d : array :=
  NdArray [:: 3; 2]%N (fun ix => (nth 0%N ix 0)%:R).

Lemma procrustes_rows_mismatch_witness :
  procrustes (fun A => (A, A, A)) two_points_2d three_points_2d
    true best = Raise ValueError.
Proof.
exact: (@procrustes_rows_mismatch _ two_points_2d three_points_2d true
          best 2 2 3 2 erefl erefl isT isT).
Defined.

(** With [reflection] forced and [Y] of more columns than [X], the
    rotation is not square and [np.linalg.det] raises [LinAlgError]. *)
Theorem procrustes_forced_nonsquare (svd : array -> array * array * array)
    (X Y : array) (scaling r : bool) (n m my : nat) :
  svd_shapes svd ->
  shape X = [:: n; m] -> shape Y = [:: n; my] -> (m < my)%N ->
  procrustes svd X Y scaling (force r) = Raise LinAlgError.
Proof.
move=> svd_shape shX shY lt_m; have le_m := ltnW lt_m.
have shXt : shape (T_ (normalised X)) = [:: m; n] by rewrite /= shX.
have shnY : shape (normalised Y) = [:: n; my] by rewrite /= shY.
have dotA := dot_mm shXt shnY; set A := matmul _ _ _ _ _ in dotA.
have := svd_shape A m my erefl.
case svdA: (svd A) => [[U s] Vt]; rewrite (minn_idPl le_m) => -[shU shs shVt].
have shV : shape (T_ Vt) = [:: my; m] by rewrite /= shVt.
have shUt : shape (T_ U) = [:: m; m] by rewrite /= shU.
rewrite /procrustes shX shY; cbv zeta.
rewrite (np_sub_mean shX) (np_sub_mean shY) !bind_Ok ltnNge le_m.
rewrite [negb true]/=; cbv beta iota; rewrite bind_Ok.
rewrite dotA bind_Ok svdA; cbv beta iota; rewrite (dot_mm shV shUt) bind_Ok.
have -> // : det (matmul (T_ Vt) (T_ U) my m m) = Raise LinAlgError.
by rewrite /det /= gtn_eqF.
Qed.

(** A decomposition of the right shapes, for examples: identity factors
    and unit singular values. *)
Definition eye (p q : nat) : array :=
  NdArray [:: p; q] (fun ix => (nth 0%N ix 0 == nth 0%N ix 1)%:R).

Definition svd_eye (A : array) : array * array * array :=
  let p := nth 0%N (shape A) 0 in
  let q := nth 0%N (shape A) 1 in
  (eye p (minn p q), full [:: minn p q] 1, eye (minn p q) q).

Lemma svd_eye_shapes : svd_shapes svd_eye.
Proof. by move=> A p q sh; rewrite /svd_eye sh. Qed.

Lemma two_points_norm : centred_norm two_points_2d != 0.
Proof.
suff: (0 < centred_norm two_points_2d) by move/lt0r_neq0.
apply/RltP; apply: sqrt_lt_R0; apply/RltP.
rewrite /sum_all /= !big_cons big_nil /= !big_ord_recl big_ord0 /=.
rewrite -[0%Re]/(0 : R) -[bump 0 0]/(1%N) ?mulr0n ?mulr1n !add0r !addr0.
do 2 (apply: ltr_wpDl; first exact: sqr_ge0).
apply: ltr_pwDl; last exact: sqr_ge0.
have -> : 1 - 1 / 2 = 2^-1 :> R by lra.
by rewrite exprn_gt0 // invr_gt0 ltr0n.
Qed.

(** The transform that [procrustes] returns maps [Y] to the returned
    [Z]: [Z = scale * Y * rotation + translation].  Here [Y] has the rows
    of [X] and at least its columns, neither point set is degenerate, and
    a forced reflection is asked only on square problems; the function
    then returns, whatever the decomposition computed. *)
Theorem procrustes_transform (svd : array -> array * array * array)
    (X Y : array) (scaling : bool) (reflection : reflection_arg)
    (n m my : nat) :
  svd_shapes svd ->
  shape X = [:: n; m] -> shape Y = [:: n; my] -> (m <= my)%N ->
  centred_norm X != 0 -> centred_norm Y != 0 ->
  (if reflection is force _ then my = m /\ (0 < m)%N else True) ->
  exists d Z tf,
    [/\ procrustes svd X Y scaling reflection = Ok (d, Z, tf),
        shape Z = [:: n; m], shape (rotation tf) = [:: my; m],
        shape (translation tf) = [:: m]
      & forall i j, (i < n)%N -> (j < m)%N ->
          get Z [:: i; j]
          = scale tf * (\sum_(k < my) get Y [:: i; (k : nat)]
                                      * get (rotation tf) [:: (k : nat); j])
            + get (translation tf) [:: j]].
Proof.
move=> svd_shape shX shY le_m _ normY_ne0 refl_ok.
have shXt : shape (T_ (normalised X)) = [:: m; n] by rewrite /= shX.
have shnY : shape (normalised Y) = [:: n; my] by rewrite /= shY.
have dotA := dot_mm shXt shnY; set A := matmul _ _ _ _ _ in dotA.
case svdA: (svd A) => [[U s] Vt].
have [T0 [d [Z [tf [_ -> _ [shZ shT shc] formula]]]]] :=
  @procrustesP svd svd_shape X Y scaling reflection n m my A U s Vt
    shX shY le_m normY_ne0 refl_ok dotA svdA.
by exists d, Z, tf.
Qed.

Lemma procrustes_transform_witness :
  exists d Z tf,
    [/\ procrustes svd_eye two_points_2d two_points_2d true (force true)
          = Ok (d, Z, tf),
        shape Z = [:: 2; 2]%N, shape (rotation tf) = [:: 2; 2]%N,
        shape (translation tf) = [:: 2]%N
      & forall i j, (i < 2)%N -> (j < 2)%N ->
          get Z [:: i; j]
          = scale tf * (\sum_(k < 2) get two_points_2d [:: i; (k : nat)]
                                     * get (rotation tf) [:: (k : nat); j])
            + get (translation tf) [:: j]].
Proof.
exact: (@procrustes_transform svd_eye two_points_2d two_points_2d true
          (force true) 2 2 2 svd_eye_shapes erefl erefl isT
          two_points_norm two_points_norm (conj erefl isT)).
Defined.



Lemma procrustes_forced_nonsquare_witness :
  procrustes svd_eye two_points_1d two_points_2d true (force false)
  = Raise LinAlgError.
Proof.
exact: (@procrustes_forced_nonsquare svd_eye two_points_1d two_points_2d
          true false 2 1 2 svd_eye_shapes erefl erefl isT).
Defined.

(** * [convertToIntList] *)

(** ** Python strings *)

Module PyStr.

Local Open Scope nat_scope.

(** A string is its sequence of code points. *)
Definition str : Type := seq nat.

(** The code points that [str.strip()] removes, those for which
    [str.isspace] holds. *)
Definition isspace (c : nat) : bool :=
  [|| (9 <= c <= 13), (28 <= c <= 32), c == 133, c == 160, c == 5760,
      (8192 <= c <= 8202), c == 8232, c == 8233, c == 8239, c == 8287
    | c == 12288].

Fixpoint lstrip (p : pred nat) (s : str) : str :=
  if s is c :: s' then if p c then lstrip p s' else s else [::].

(** [s.strip(chars)] and [s.strip()], by the set of code points
    removed. *)
Definition strip (p : pred nat) (s : str) : str :=
  rev (lstrip p (rev (lstrip p s))).

Definition starts_with (sep s : str) : bool := take (size sep) s == sep.

(** [s.split(sep)] for a non-empty [sep]: [cur] holds the current piece
    in reverse, [skip] what is left of a separator being passed. *)
Fixpoint split_aux (sep : str) (skip : nat) (cur : str) (s : str) :
    seq str :=
  match s with
  | [::] => [:: rev cur]
  | c :: s' =>
      if skip is k.+1 then split_aux sep k cur s'
      else if starts_with sep s then
        rev cur :: split_aux sep (size sep).-1 [::] s'
      else split_aux sep 0 (c :: cur) s'
  end.

Definition split (sep s : str) : seq str := split_aux sep 0 [::] s.

End PyStr.

Import PyStr.

Section ConvertToIntList.

(** [int(i)] on a stripped, non-empty string: the integer it denotes, or
    [ValueError]. *)
Variable int_ : str -> result Z.

(** The inner loop: the integers of one subarray. *)
Fixpoint int_row (items : seq str) : result (seq Z) :=
  if items is i :: items' then
    let i := strip isspace i in
    if i != [::] then
      let* v := int_ i in
      let* x := int_row items' in
      Ok (v :: x)
    else int_row items'
  else Ok [::].

Definition convertToIntList (arr : str) : result (seq (seq Z)) :=
  mapM (fun q => int_row (split [:: 44] q))
       (split [:: 93; 44; 91] (strip (mem [:: 93; 91]) arr)).

End ConvertToIntList.

(** ** Facts on strings *)

Section StrFacts.

Local Open Scope nat_scope.

Lemma lstrip_cat (p : pred nat) (a s : str) :
  all p a -> lstrip p (a ++ s) = lstrip p s.
Proof. by elim: a => [|c a IH] //= /andP[-> /IH]. Qed.

Lemma lstrip_id (p : pred nat) (c : nat) (s : str) :
  ~~ p c -> lstrip p (c :: s) = c :: s.
Proof. by move=> /= /negPf ->. Qed.

Lemma strip_cat (p : pred nat) (a b : str) (c : nat) (body : str) :
  all p a -> all p b -> ~~ p c -> ~~ p (last c body) ->
  strip p (a ++ (c :: body) ++ b) = c :: body.
Proof.
move=> pa pb npc npl; rewrite /strip lstrip_cat // cat_cons lstrip_id //.
rewrite -cat_cons rev_cat lstrip_cat ?all_rev //.
rewrite -[RHS]revK; congr rev.
by rewrite (lastI c body) rev_rcons lstrip_id.
Qed.

Lemma strip_id (p : pred nat) (c : nat) (body : str) :
  ~~ p c -> ~~ p (last c body) -> strip p (c :: body) = c :: body.
Proof.
move=> npc npl; have := @strip_cat p [::] [::] c body isT isT npc npl.
by rewrite cats0.
Qed.

(** [sep.join(pieces)]. *)
Fixpoint join (sep : str) (pieces : seq str) : str :=
  match pieces with
  | [::] => [::]
  | [:: p] => p
  | p :: pieces' => p ++ sep ++ join sep pieces'
  end.

Lemma join_cons (sep p q : str) (pieces : seq str) :
  join sep (p :: q :: pieces) = p ++ sep ++ join sep (q :: pieces).
Proof. by []. Qed.

Variables (c0 : nat) (sep' : str).
Let sep : str := c0 :: sep'.

Lemma split_aux_skip (t : str) (cur r : str) :
  split_aux sep (size t) cur (t ++ r) = split_aux sep 0 cur r.
Proof. by elim: t => [|c t IH]. Qed.

Lemma split_aux_piece (p cur r : str) :
  c0 \notin p ->
  split_aux sep 0 cur (p ++ r) = split_aux sep 0 (catrev p cur) r.
Proof.
elim: p cur => [|c p IH] cur //=; rewrite inE negb_or => /andP[ne_c notin].
rewrite /starts_with /= eqseq_cons eq_sym (negPf ne_c) /=.
exact: IH.
Qed.

Lemma split_aux_sep (cur r : str) :
  split_aux sep 0 cur (sep ++ r) = rev cur :: split_aux sep 0 [::] r.
Proof.
have -> : split_aux sep 0 cur (sep ++ r)
          = rev cur :: split_aux sep (size sep') [::] (sep' ++ r).
  by rewrite /sep [LHS]/= /starts_with -cat_cons take_size_cat // eqxx.
by rewrite split_aux_skip.
Qed.

Lemma split_join (pieces : seq str) :
  pieces != [::] -> all (fun p => c0 \notin p) pieces ->
  split sep (join sep pieces) = pieces.
Proof.
rewrite /split; case: pieces => [|p pieces] // _.
elim: pieces p => [|q pieces IH] p /=.
  rewrite andbT => notin; rewrite -[p in LHS]cats0 split_aux_piece //=.
  by rewrite catrevE cats0 revK.
case/andP=> notin rest.
rewrite split_aux_piece // split_aux_sep catrevE cats0 revK.
by rewrite (IH q rest).
Qed.

End StrFacts.

(** ** Reading back a rendered list of lists *)

Section RoundTrip.

Local Open Scope nat_scope.

Variable int_ : str -> result Z.

(** A decimal rendering of the integers that [int] reads back: not
    empty, with no comma, bracket or white space in it. *)
Variable repr : Z -> str.

Definition clean (c : nat) : bool :=
  (c \notin [:: 44; 91; 93]) && ~~ isspace c.

Hypothesis int_repr : forall z, int_ (repr z) = Ok z.
Hypothesis repr_clean : forall z, all clean (repr z).
Hypothesis repr_nonempty : forall z, repr z != [::].

(** The compact rendering [[[1,2],[3,4]]] of a list of lists. *)
Definition render_row (r : seq Z) : str := join [:: 44] [seq repr z | z <- r].

Definition render (rows : seq (seq Z)) : str :=
  [:: 91; 91] ++ join [:: 93; 44; 91] [seq render_row r | r <- rows]
  ++ [:: 93; 93].

Lemma strip_repr (z : Z) : strip isspace (repr z) = repr z.
Proof.
have := repr_clean z; have := repr_nonempty z.
case: (repr z) => [|c body] // _ ok; apply: strip_id.
  by case/andP: ok => /andP[].
have: last c body \in c :: body by exact: mem_last.
by move/(allP ok) => /andP[].
Qed.

Lemma int_row_repr (r : seq Z) : int_row int_ [seq repr z | z <- r] = Ok r.
Proof.
elim: r => [|z r IH] //=.
by rewrite strip_repr repr_nonempty int_repr /= IH.
Qed.

Lemma repr_without (c : nat) (r : seq Z) :
  c \in [:: 44; 91; 93] -> all (fun p : str => c \notin p) [seq repr z | z <- r].
Proof.
move=> special; elim: r => [|z r IH] //=; rewrite IH andbT.
apply/negP => /(allP (repr_clean z)) /andP[].
by rewrite special.
Qed.

Lemma row_round_trip (r : seq Z) :
  int_row int_ (split [:: 44] (render_row r)) = Ok r.
Proof.
case: r => [|z r] //; rewrite /render_row split_join ?int_row_repr //.
exact: repr_without.
Qed.

Lemma render_row_chars (r : seq Z) :
  all (fun c => c \notin [:: 91; 93]) (render_row r).
Proof.
rewrite /render_row; elim: r => [|z [|z' r] IH] //=.
  by apply: sub_all (repr_clean z) => c /andP[]; rewrite !inE !negb_or => /and3P[_ -> ->].
rewrite all_cat /= IH andbT.
by apply: sub_all (repr_clean z) => c /andP[]; rewrite !inE !negb_or => /and3P[_ -> ->].
Qed.

Lemma render_row_nonempty (r : seq Z) : ~~ nilp r -> render_row r != [::].
Proof.
case: r => [|z [|z' r]] // _; rewrite /render_row /=; first exact: repr_nonempty.
by case: (repr z) (repr_nonempty z).
Qed.

Lemma join_rcons (sep : str) (pieces : seq str) (p : str) :
  join sep (rcons pieces p)
  = if pieces is [::] then p else join sep pieces ++ sep ++ p.
Proof.
elim: pieces => [|q [|q' pieces] IH] //.
rewrite rcons_cons [rcons _ _]/= join_cons -/(rcons (q' :: pieces) p) IH.
by rewrite join_cons !catA.
Qed.

Lemma mapM_map (A B : Type) (f : B -> result A) (g : A -> B) (s : seq A) :
  (forall x, f (g x) = Ok x) -> mapM f [seq g x | x <- s] = Ok s.
Proof. by move=> fg; elim: s => [|x s IH] //=; rewrite fg /= IH. Qed.

Lemma join_head (sep : str) (c : nat) (p : str) (pieces : seq str) :
  exists t, join sep ((c :: p) :: pieces) = c :: t.
Proof. by case: pieces => [|q pieces]; [exists p | eexists; rewrite join_cons]. Qed.

(** The rendering between its outer brackets begins and ends with a
    character of a number. *)
Lemma body_ends (rows : seq (seq Z)) :
  ~~ nilp (head [::] rows) -> ~~ nilp (last [::] rows) ->
  exists c body,
    [/\ join [:: 93; 44; 91] [seq render_row r | r <- rows] = c :: body,
        c \notin [:: 93; 91] & last c body \notin [:: 93; 91]].
Proof.
have plain r x : x \in render_row r -> x \notin [:: 93; 91].
  by move/(allP (render_row_chars r)); rewrite !inE orbC.
case/lastP: rows => [|rows rl] //; rewrite last_rcons => head_ne last_ne.
have := render_row_nonempty last_ne.
case/lastP rl_eq: (render_row rl) => [|t d] // _.
have d_plain : d \notin [:: 93; 91] by apply: (plain rl); rewrite rl_eq mem_rcons mem_head.
rewrite map_rcons join_rcons rl_eq.
case: rows head_ne => [|r1 rows] head_ne.
  rewrite [map _ _]/=.
  case: t rl_eq => [|c t] rl_eq; first by exists d, [::].
  exists c, (rcons t d); split; rewrite ?last_rcons //.
  by apply: (plain rl); rewrite rl_eq mem_head.
have {}head_ne : ~~ nilp r1 by [].
have := render_row_nonempty head_ne; rewrite map_cons.
case r1_eq: (render_row r1) => [|c s] // _.
have [u ->] := join_head [:: 93; 44; 91] c s [seq render_row r | r <- rows].
exists c, (u ++ [:: 93; 44; 91] ++ rcons t d); split=> //.
  by apply: (plain r1); rewrite r1_eq mem_head.
by rewrite !last_cat last_rcons.
Qed.

(** The rendering without its outer brackets. *)
Lemma strip_render (rows : seq (seq Z)) :
  ~~ nilp (head [::] rows) -> ~~ nilp (last [::] rows) ->
  strip (mem [:: 93; 91]) (render rows)
  = join [:: 93; 44; 91] [seq render_row r | r <- rows].
Proof.
move=> head_ne last_ne; rewrite /render.
have [c [body [-> c_plain last_plain]]] := body_ends head_ne last_ne.
by rewrite strip_cat.
Qed.

End RoundTrip.

(** [convertToIntList] reads back the compact rendering of a list of
    lists of integers whose first and last lists are not empty, for any
    decimal rendering that [int] inverts. *)
Theorem convertToIntList_round_trip (int_ : str -> result Z) (repr : Z -> str)
    (rows : seq (seq Z)) :
  (forall z, int_ (repr z) = Ok z) ->
  (forall z, all clean (repr z)) ->
  (forall z, repr z != [::]) ->
  ~~ nilp (head [::] rows) -> ~~ nilp (last [::] rows) ->
  convertToIntList int_ (render repr rows) = Ok rows.
Proof.
move=> int_repr repr_clean repr_nonempty head_ne last_ne.
rewrite /convertToIntList strip_render // split_join.
- by case: rows head_ne {last_ne}.
- elim: (rows) => [|r rs IH] //=; rewrite IH andbT.
  apply/negP => /(allP (render_row_chars repr_clean r)).
  by rewrite !inE eqxx orbT.
- apply: (@mapM_map _ _ (fun q => int_row int_ (split [:: 44] q))
            (render_row repr)) => r.
  exact: row_round_trip.
Qed.

Lemma split_aux_nonempty (sep : str) (skip : nat) (cur s : str) :
  (0 < size (split_aux sep skip cur s))%N.
Proof.
elim: s skip cur => [|c s IH] [|k] cur //=.
by case: (starts_with _ _).
Qed.

(** No input is read as the empty list: [split] yields a piece even for
    the empty string. *)
Theorem convertToIntList_nonempty (int_ : str -> result Z) (arr : str)
    (rows : seq (seq Z)) :
  convertToIntList int_ arr = Ok rows -> (0 < size rows)%N.
Proof.
rewrite /convertToIntList => /mapM_size ->.
exact: split_aux_nonempty.
Qed.

(** ** Decimal numerals, for examples *)

Section Decimal.

Local Open Scope nat_scope.

Fixpoint chars_of_uint (d : Decimal.uint) : str :=
  match d with
  | Decimal.Nil => [::]
  | Decimal.D0 d => 48 :: chars_of_uint d
  | Decimal.D1 d => 49 :: chars_of_uint d
  | Decimal.D2 d => 50 :: chars_of_uint d
  | Decimal.D3 d => 51 :: chars_of_uint d
  | Decimal.D4 d => 52 :: chars_of_uint d
  | Decimal.D5 d => 53 :: chars_of_uint d
  | Decimal.D6 d => 54 :: chars_of_uint d
  | Decimal.D7 d => 55 :: chars_of_uint d
  | Decimal.D8 d => 56 :: chars_of_uint d
  | Decimal.D9 d => 57 :: chars_of_uint d
  end.

Fixpoint uint_of_chars (s : str) : option Decimal.uint :=
  if s is c :: s' then
    if uint_of_chars s' is Some d then
      if 48 <= c then
        match c - 48 with
        | 0 => Some (Decimal.D0 d)
        | 1 => Some (Decimal.D1 d)
        | 2 => Some (Decimal.D2 d)
        | 3 => Some (Decimal.D3 d)
        | 4 => Some (Decimal.D4 d)
        | 5 => Some (Decimal.D5 d)
        | 6 => Some (Decimal.D6 d)
        | 7 => Some (Decimal.D7 d)
        | 8 => Some (Decimal.D8 d)
        | 9 => Some (Decimal.D9 d)
        | _ => None
        end
      else None
    else None
  else Some Decimal.Nil.

(** The decimal numeral of an integer, with a minus sign when negative,
    and its reading. *)
Definition repr_dec (z : Z) : str :=
  match Z.to_int z with
  | Decimal.Pos d => chars_of_uint d
  | Decimal.Neg d => 45 :: chars_of_uint d
  end.

Definition int_dec (s : str) : result Z :=
  let '(negative, digits) :=
    if s is c :: s' then if c == 45 then (true, s') else (false, s)
    else (false, s) in
  if uint_of_chars digits is Some d then
    Ok (Z.of_int (if negative then Decimal.Neg d else Decimal.Pos d))
  else Raise ValueError.

Lemma uint_of_chars_of (d : Decimal.uint) :
  uint_of_chars (chars_of_uint d) = Some d.
Proof. by elim: d => [|d IH|d IH|d IH|d IH|d IH|d IH|d IH|d IH|d IH|d IH] //=; rewrite IH. Qed.

Lemma chars_of_uint_digits (d : Decimal.uint) :
  all (fun c => 48 <= c <= 57) (chars_of_uint d).
Proof. by elim: d. Qed.

Lemma int_repr_dec (z : Z) : int_dec (repr_dec z) = Ok z.
Proof.
rewrite -[in RHS](DecimalZ.of_to z) /repr_dec /int_dec.
case: (Z.to_int z) => d; last by rewrite eqxx uint_of_chars_of.
have -> : (if chars_of_uint d is c :: s'
           then if c == 45 then (true, s') else (false, chars_of_uint d)
           else (false, chars_of_uint d)) = (false, chars_of_uint d).
  have := chars_of_uint_digits d.
  case: (chars_of_uint d) => [|c s] //= /andP[/andP[ge48 _] _].
  by rewrite ifN // neq_ltn (@leq_trans 48 46 c) ?orbT.
by rewrite uint_of_chars_of.
Qed.

Lemma chars_of_uint_clean (d : Decimal.uint) : all clean (chars_of_uint d).
Proof.
elim: d => [|d IH|d IH|d IH|d IH|d IH|d IH|d IH|d IH|d IH|d IH] //;
  by rewrite [chars_of_uint _]/= [all _ _]/= IH andbT; vm_compute.
Qed.

Lemma repr_dec_clean (z : Z) : all clean (repr_dec z).
Proof.
by rewrite /repr_dec; case: (Z.to_int z) => d /=; rewrite ?chars_of_uint_clean.
Qed.

Lemma repr_dec_nonempty (z : Z) : repr_dec z != [::].
Proof.
rewrite /repr_dec; case: z => [|p|p] //.
have := DecimalPos.Unsigned.to_uint_nonnil p.
set u := BinPos.Pos.to_uint p.
change (u <> Decimal.Nil -> chars_of_uint u != [::]).
by case: u => [nonnil|d|d|d|d|d|d|d|d|d|d] //; case: nonnil.
Qed.

End Decimal.

Lemma convertToIntList_round_trip_witness :
  convertToIntList int_dec
    (render repr_dec [:: [:: 1%ZZ; (-2)%ZZ]; [:: 30%ZZ; 4%ZZ]])
  = Ok [:: [:: 1%ZZ; (-2)%ZZ]; [:: 30%ZZ; 4%ZZ]].
Proof.
exact: (@convertToIntList_round_trip int_dec repr_dec
          [:: [:: 1%ZZ; (-2)%ZZ]; [:: 30%ZZ; 4%ZZ]]
          int_repr_dec repr_dec_clean repr_dec_nonempty isT isT).
Defined.

Lemma convertToIntList_nonempty_witness :
  (0 < size [:: ([::] : seq Z)])%N.
Proof.
exact: (@convertToIntList_nonempty int_dec [::] [:: [::]] erefl).
Defined.
